(** * pikepdf [_io.py]: the guard checks and the atomic overwrite writer

    A shallow embedding of [src/pikepdf/_io.py] over an explicit model of the
    part of the operating system the module talks to: a name space of paths,
    inodes identified by device and inode number (directories, regular
    files and symbolic links), buffered file objects, and an oracle that
    lets any I/O operation fail.  The protocol of
    [contextlib.contextmanager] is modelled as CPython has it from 3.12 and
    as it was before. *)

From Stdlib Require Import ZArith Ascii String List.
From Stdlib.Strings Require Import Byte.
From stdpp Require Import gmap strings list fin_maps.

Local Open Scope string_scope.
Local Open Scope Z_scope.
Local Open Scope list_scope.

(** * Part I: the model *)

(** ** Exceptions *)

(** The exception objects that can reach this module.  [OSError n] stands
    for an [OSError] whose errno has no dedicated subclass (EMFILE, ENOSPC,
    EIO, ...); the last three are the built-in exceptions that derive from
    [BaseException] but not from [Exception]. *)
Inductive exn : Type :=
| FileExistsError
| FileNotFoundError
| PermissionError
| IsADirectoryError
| NotADirectoryError
| OSError (errno : Z)
| ValueError (msg : string)
| TypeError (msg : string)
| RuntimeError (msg : string)
| KeyboardInterrupt
| SystemExit (code : Z)
| GeneratorExit.

(** [isinstance(e, Exception)] *)
Definition is_Exception (e : exn) : bool :=
  match e with
  | KeyboardInterrupt | SystemExit _ | GeneratorExit => false
  | _ => true
  end.

(** [isinstance(e, FileExistsError)] *)
Definition is_FileExistsError (e : exn) : bool :=
  match e with FileExistsError => true | _ => false end.

(** [isinstance(e, FileNotFoundError)] *)
Definition is_FileNotFoundError (e : exn) : bool :=
  match e with FileNotFoundError => true | _ => false end.

(** ** Paths (pathlib, POSIX flavour) *)

(** A [Path] is its tuple of [parts]: the root ("/" or "//") first when the
    path is anchored, then the components.  Two paths are [==] exactly when
    their parts agree. *)
Definition path : Type := list string.

Fixpoint split_slash (s : string) : list string :=
  match s with
  | EmptyString => [EmptyString]
  | String c s' =>
      if Ascii.eqb c "/" then EmptyString :: split_slash s'
      else match split_slash s' with
           | x :: xs => String c x :: xs
           | [] => [String c EmptyString]
           end
  end.

(** The root of a POSIX path string: exactly two leading slashes are kept,
    any other number of leading slashes collapses to one. *)
Definition path_root (s : string) : list string :=
  match s with
  | String "/" (String "/" (String "/" _)) => ["/"]
  | String "/" (String "/" _) => ["//"]
  | String "/" _ => ["/"]
  | _ => []
  end.

Definition keep_part (x : string) : bool :=
  negb (String.eqb x "") && negb (String.eqb x ".").

(** [Path(s)]: empty components and "." components are dropped. *)
Definition Path (s : string) : path :=
  path_root s ++ List.filter keep_part (split_slash s).

Definition is_root_part (x : string) : bool :=
  String.eqb x "/" || String.eqb x "//".

(** [p.parent]: the path without its last component; the root and the
    empty path are their own parents. *)
Definition parent (p : path) : path :=
  match p with
  | [] => []
  | [x] => if is_root_part x then [x] else []
  | _ => removelast p
  end.

(** [p.name]: the last component, or "" for the root and the empty path. *)
Definition name (p : path) : string :=
  match p with
  | [] => ""
  | [x] => if is_root_part x then "" else x
  | _ => List.last p ""
  end.

(** [dir / x] for a single component [x]. *)
Definition joinpath (dir : path) (x : string) : path := dir ++ [x].

(** ** The operating system *)

(** A file's identity, as [os.stat] reports it: [(st_dev, st_ino)]. *)
Definition file_id : Type := (Z * Z)%type.

Inductive inode : Type :=
| IDir
| IFile (data : list byte)
| ILink (target : path).

(** An open buffered binary file object: the name it was opened under, the
    inode its descriptor refers to, the bytes written but not yet flushed,
    and whether [close()] has been called. *)
Record ofile : Type := OFile {
  of_name : path;
  of_id : file_id;
  of_buf : list byte;
  of_closed : bool
}.

(** A file object is referred to by its index in the table of file objects. *)
Definition handle : Type := nat.

(** The I/O operations the module performs, as recorded in the log. *)
Inductive op : Type :=
| OpStat (p : path)
| OpOpenX (p : path)
| OpOpenA (p : path)
| OpMkstemp (p : path)
| OpWrite (h : handle)
| OpFlush (h : handle)
| OpClose (h : handle)
| OpUnlink (p : path)
| OpReplace (src dst : path).

(** The progress of a generator under [contextlib.contextmanager]: it has
    not yielded yet; it has yielded once and the [with] body has run,
    raising [thrown] if it raised; or it has yielded a second time. *)
Inductive gen_state : Type :=
| NotYielded
| Yielded (thrown : option exn)
| YieldedAgain (thrown : option exn).

(** The state of the world.
    - [names]: the directory entries, what each path is bound to (hard
      links are two names for one [file_id]);
    - [inodes]: the directories, the contents of the regular files and the
      targets of the symbolic links;
    - [handles]: the file objects created so far;
    - [faults]: for each coming I/O operation, the error the environment
      makes it fail with, if any (an exhausted oracle injects nothing);
    - [rng]: the candidate names [tempfile] will draw;
    - [log]: the I/O operations attempted so far, latest first;
    - [gen]: where the generator driven by the current [with] statement
      stands;
    - [closes_generator]: whether [contextlib] closes a generator that
      yields a second time before the [with] statement ends, as CPython
      does from 3.12 on; before, such a generator is left suspended.

    A name is a directory entry, keyed by the path as it is spelt.  A
    symbolic link is followed where it is the last component of a path,
    and where it is the directory an entry is looked up or created in; the
    entries of a directory reached through a link are those spelt through
    that link.  An entry whose inode is missing is a stale one (ESTALE). *)
Record world : Type := World {
  names : gmap path file_id;
  inodes : gmap file_id inode;
  handles : list ofile;
  faults : list (option exn);
  rng : list string;
  log : list op;
  gen : gen_state;
  closes_generator : bool
}.

Definition set_names (f : gmap path file_id → gmap path file_id) (w : world) : world :=
  World (f (names w)) (inodes w) (handles w) (faults w) (rng w) (log w) (gen w)
        (closes_generator w).
Definition set_inodes (f : gmap file_id inode → gmap file_id inode) (w : world) : world :=
  World (names w) (f (inodes w)) (handles w) (faults w) (rng w) (log w) (gen w)
        (closes_generator w).
Definition set_handles (f : list ofile → list ofile) (w : world) : world :=
  World (names w) (inodes w) (f (handles w)) (faults w) (rng w) (log w) (gen w)
        (closes_generator w).
Definition set_faults (fs : list (option exn)) (w : world) : world :=
  World (names w) (inodes w) (handles w) fs (rng w) (log w) (gen w)
        (closes_generator w).
Definition set_rng (r : list string) (w : world) : world :=
  World (names w) (inodes w) (handles w) (faults w) r (log w) (gen w)
        (closes_generator w).
Definition add_log (o : op) (w : world) : world :=
  World (names w) (inodes w) (handles w) (faults w) (rng w) (o :: log w) (gen w)
        (closes_generator w).
Definition set_gen (g : gen_state) (w : world) : world :=
  World (names w) (inodes w) (handles w) (faults w) (rng w) (log w) g
        (closes_generator w).
Definition set_closes_generator (c : bool) (w : world) : world :=
  World (names w) (inodes w) (handles w) (faults w) (rng w) (log w) (gen w) c.

(** What a reader sees of the regular file the entry [p] is bound to
    (nothing when [p] is bound to a directory or to a symbolic link). *)
Definition read_file (w : world) (p : path) : option (list byte) :=
  match names w !! p with
  | Some i => match inodes w !! i with
              | Some (IFile d) => Some d
              | _ => None
              end
  | None => None
  end.

Definition is_dir (w : world) (p : path) : bool :=
  match names w !! p with
  | Some i => match inodes w !! i with Some IDir => true | _ => false end
  | None => false
  end.

Definition is_dir_id (w : world) (i : file_id) : bool :=
  match inodes w !! i with Some IDir => true | _ => false end.

(** The entry [p] is a symbolic link. *)
Definition is_link (w : world) (p : path) : bool :=
  match names w !! p with
  | Some i => match inodes w !! i with Some (ILink _) => true | _ => false end
  | None => false
  end.

(** Where a path ends when symbolic links are followed: at the entry [q]
    of a regular file, of a directory or of a stale inode, at an entry [q]
    that does not exist, or nowhere, after too many links. *)
Inductive target : Type :=
| TFile (q : path) (i : file_id) (data : list byte)
| TDir (q : path) (i : file_id)
| TStale (q : path) (i : file_id)
| TMissing (q : path)
| TLoop.

Fixpoint follow (fuel : nat) (w : world) (p : path) : target :=
  match names w !! p with
  | None => TMissing p
  | Some i =>
      match inodes w !! i with
      | Some (IFile d) => TFile p i d
      | Some IDir => TDir p i
      | Some (ILink t) =>
          match fuel with
          | O => TLoop
          | S n => follow n w t
          end
      | None => TStale p i
      end
  end.

(** The kernel follows at most 40 links (ELOOP beyond). *)
Definition resolve (w : world) (p : path) : target := follow 40 w p.

(** The error with which the lookup of the missing entry [p] fails: ENOENT
    when the directory it would be in exists, or when a directory on the
    way is missing (a dangling link included); ENOTDIR when the nearest
    existing ancestor leads to a regular file; ELOOP; ESTALE. *)
Fixpoint lookup_error_from (n : nat) (w : world) (p : path) : exn :=
  match names w !! parent p with
  | Some _ =>
      match resolve w (parent p) with
      | TFile _ _ _ => NotADirectoryError
      | TStale _ _ => OSError 116
      | TLoop => OSError 40
      | TDir _ _ | TMissing _ => FileNotFoundError
      end
  | None =>
      match n with
      | O => FileNotFoundError
      | S n' => lookup_error_from n' w (parent p)
      end
  end.

Definition lookup_error (w : world) (p : path) : exn :=
  lookup_error_from (length p) w p.

(** ** Computations that change the world and may raise *)

Inductive result (A : Type) : Type :=
| Ok (a : A)
| Raise (e : exn).
Arguments Ok {A} a.
Arguments Raise {A} e.

Definition M (A : Type) : Type := world → world * result A.

Definition ret {A} (a : A) : M A := λ w, (w, Ok a).
Definition raise {A} (e : exn) : M A := λ w, (w, Raise e).
Definition bind {A B} (m : M A) (k : A → M B) : M B := λ w,
  match m w with
  | (w1, Ok a) => k a w1
  | (w1, Raise e) => (w1, Raise e)
  end.

Declare Scope io_scope.
Delimit Scope io_scope with io.
Notation "x <- m ;; k" := (bind m (λ x, k))
  (at level 100, m at next level, right associativity) : io_scope.
Notation "m ;; k" := (bind m (λ _, k))
  (at level 100, k at level 200, right associativity) : io_scope.
Local Open Scope io_scope.

(** [try: m / except <cls>: handler]: the handler runs for the exceptions
    the class test accepts, all others propagate. *)
Definition try_except {A} (m : M A) (cls : exn → bool) (handler : exn → M A) : M A := λ w,
  match m w with
  | (w1, Raise e) => if cls e then handler e w1 else (w1, Raise e)
  | r => r
  end.

(** [with suppress(FileNotFoundError): m] *)
Definition suppress_FileNotFoundError (m : M unit) : M unit :=
  try_except m is_FileNotFoundError (λ _, ret tt).

(** An I/O operation: it is logged and consumes one entry of the oracle;
    if that entry is an error the operation fails with it, otherwise it
    behaves as the file system state dictates. *)
Definition io {A} (o : op) (nominal : M A) : M A := λ w,
  let w1 := set_faults (tl (faults w)) (add_log o w) in
  match hd None (faults w) with
  | Some e => (w1, Raise e)
  | None => nominal w1
  end.

(** ** File system operations *)

(** [os.stat_result], the two fields [samestat] looks at. *)
Record stat_result : Type := StatResult { st_dev : Z; st_ino : Z }.

(** What [stat] answers for [p] in [w], links followed: the identity of
    the file or directory [p] leads to; ENOENT or ENOTDIR when it leads to
    a missing entry, a dangling link included; ELOOP; ESTALE. *)
Definition stat_of (w : world) (p : path) : result stat_result :=
  match resolve w p with
  | TFile _ i _ | TDir _ i => Ok (StatResult (fst i) (snd i))
  | TStale _ _ => Raise (OSError 116)
  | TMissing q => Raise (lookup_error w q)
  | TLoop => Raise (OSError 40)
  end.

(** [os.stat(p)] *)
Definition os_stat (p : path) : M stat_result :=
  io (OpStat p) (λ w, (w, stat_of w p)).

(** The inode numbers in use, through a name or through an inode. *)
Definition used_inos (w : world) : gset Z :=
  set_map snd (dom (inodes w)) ∪ set_map snd (map_img (names w) : gset file_id).

(** A new file lives on the device of its directory and gets an unused
    inode number. *)
Definition new_file_id (w : world) (d : file_id) : file_id :=
  (fst d, fresh (used_inos w)).

Definition new_handle (f : ofile) : M handle := λ w,
  (set_handles (λ hs, hs ++ [f]) w, Ok (length (handles w))).

(** Creation of the regular file at the missing entry [p] (the [O_CREAT]
    part of an open) for a file object opened under the name [opened_as]:
    the parent of [p] must be a directory, or lead to one. *)
Definition create_file (p opened_as : path) : M handle := λ w,
  match resolve w (parent p) with
  | TDir _ d =>
      let i := new_file_id w d in
      new_handle (OFile opened_as i [] false)
        (set_inodes (insert i (IFile [])) (set_names (insert p i) w))
  | _ => (w, Raise (lookup_error w p))
  end.

(** [O_CREAT | O_EXCL]: fails when the name is taken, whatever it names, a
    symbolic link included, dangling or not. *)
Definition excl_create (p : path) : M handle := λ w,
  match names w !! p with
  | Some _ => (w, Raise FileExistsError)
  | None => create_file p p w
  end.

(** [p.open("xb")] *)
Definition path_open_xb (p : path) : M handle :=
  io (OpOpenX p) (excl_create p).

(** [p.open("ab")]: symbolic links are followed; an existing regular file
    is opened as it is; a missing one is created, where [p] itself would be
    or, when [p] is a dangling link, where the link points. *)
Definition path_open_ab (p : path) : M handle :=
  io (OpOpenA p) (λ w,
    match resolve w p with
    | TFile _ i _ => new_handle (OFile p i [] false) w
    | TDir _ _ => (w, Raise IsADirectoryError)
    | TStale _ _ => (w, Raise (OSError 116))
    | TMissing q => create_file q p w
    | TLoop => (w, Raise (OSError 40))
    end).

(** [tempfile._mkstemp_inner]: candidates are tried in turn, a taken name
    moves on to the next one, any other failure is raised; when the
    candidates run out (TMP_MAX tries in CPython) it gives up. *)
Fixpoint mkstemp_inner (cands : list string) (dir : path) (pre : string) : M handle :=
  match cands with
  | [] => raise FileExistsError
  | c :: cs => λ w,
      let file := joinpath dir (pre ++ c)%string in
      match io (OpMkstemp file) (excl_create file) (set_rng cs w) with
      | (w1, Raise e) =>
          if is_FileExistsError e then mkstemp_inner cs dir pre w1
          else (w1, Raise e)
      | r => r
      end
  end.

(** [NamedTemporaryFile(dir=dir, prefix=pre, delete=False)]: the file
    object's [name] is [dir] joined with the prefix and the candidate
    drawn; nothing removes the file when the object is closed. *)
Definition NamedTemporaryFile (dir : path) (pre : string) : M handle := λ w,
  mkstemp_inner (rng w) dir pre w.

(** [f.name] *)
Definition file_name (h : handle) : M path := λ w,
  match handles w !! h with
  | Some f => (w, Ok (of_name f))
  | None => (w, Raise (ValueError "no such file object"))
  end.

(** [f.write(bs)]: the bytes go to the buffer. *)
Definition file_write (h : handle) (bs : list byte) : M unit := λ w,
  match handles w !! h with
  | Some f =>
      if of_closed f then (w, Raise (ValueError "write to closed file"))
      else io (OpWrite h) (λ w1,
             (set_handles (<[h := OFile (of_name f) (of_id f) (of_buf f ++ bs) false]>) w1,
              Ok tt)) w
  | None => (w, Raise (ValueError "no such file object"))
  end.

(** The buffer of [f] is appended to the file its descriptor refers to
    (the module only ever writes sequentially from the start of a file it
    has just created) and emptied. *)
Definition write_back (h : handle) (f : ofile) (w : world) : world :=
  set_handles (<[h := OFile (of_name f) (of_id f) [] (of_closed f)]>)
    (set_inodes (λ m, match m !! of_id f with
                      | Some (IFile d) => <[of_id f := IFile (d ++ of_buf f)]> m
                      | _ => m
                      end) w).

(** [f.flush()] *)
Definition file_flush (h : handle) : M unit := λ w,
  match handles w !! h with
  | Some f =>
      if of_closed f then (w, Raise (ValueError "flush of closed file"))
      else io (OpFlush h) (λ w1, (write_back h f w1, Ok tt)) w
  | None => (w, Raise (ValueError "no such file object"))
  end.

Definition mark_closed (h : handle) (w : world) : world :=
  set_handles (λ hs, match hs !! h with
                     | Some f => <[h := OFile (of_name f) (of_id f) (of_buf f) true]> hs
                     | None => hs
                     end) w.

(** [f.close()]: a no-op on a closed file; otherwise the buffer is flushed
    and the file object is closed, also when the flush fails. *)
Definition file_close (h : handle) : M unit := λ w,
  match handles w !! h with
  | Some f =>
      if of_closed f then (w, Ok tt)
      else match io (OpClose h) (λ w1, (write_back h f w1, Ok tt)) w with
           | (w1, r) => (mark_closed h w1, r)
           end
  | None => (w, Raise (ValueError "no such file object"))
  end.

(** [p.unlink()]: the entry [p] itself is removed, also when it is a
    symbolic link; a missing entry fails with the error of its lookup. *)
Definition path_unlink (p : path) : M unit :=
  io (OpUnlink p) (λ w,
    match names w !! p with
    | Some i =>
        match inodes w !! i with
        | Some IDir => (w, Raise IsADirectoryError)
        | _ => (set_names (delete p) w, Ok tt)
        end
    | None => (w, Raise (lookup_error w p))
    end).

(** [src.replace(dst)], that is rename(2): [dst] then names what [src]
    named and [src] is gone; two names of one file are left alone; a
    regular file does not replace a directory nor a directory a regular
    file (a replaced directory is taken to be empty); no link is
    followed. *)
Definition path_replace (src dst : path) : M unit :=
  io (OpReplace src dst) (λ w,
    match names w !! src with
    | Some i =>
        match names w !! dst with
        | Some j =>
            if decide (i = j) then (w, Ok tt)
            else if negb (is_dir_id w i) && is_dir_id w j then (w, Raise IsADirectoryError)
            else if is_dir_id w i && negb (is_dir_id w j) then (w, Raise NotADirectoryError)
            else (set_names (λ m, <[dst := i]> (delete src m)) w, Ok tt)
        | None =>
            match resolve w (parent dst) with
            | TDir _ _ => (set_names (λ m, <[dst := i]> (delete src m)) w, Ok tt)
            | _ => (w, Raise (lookup_error w dst))
            end
        end
    | None => (w, Raise (lookup_error w src))
    end).

(** The generator has yielded a second time and [contextlib] does not
    close it: its frame stays suspended at that [yield], so that nothing of
    it runs any more while the [with] statement ends. *)
Definition suspended (w : world) : bool :=
  match gen w with
  | YieldedAgain _ => negb (closes_generator w)
  | _ => false
  end.

(** [with opener as f: block]: the file object is closed on the way out,
    however the block ends; an error of the close is the one that
    propagates.  A frame that is left suspended in the block never gets to
    the way out. *)
Definition with_file {A} (opener : M handle) (block : handle → M A) : M A :=
  f <- opener ;;
  λ w, match block f w with
       | (w1, r) =>
           if suspended w1 then (w1, r)
           else match file_close f w1 with
                | (w2, Ok _) => (w2, r)
                | (w2, Raise e) => (w2, Raise e)
                end
       end.

(** ** The module [_io.py] *)

(** What the module can observe of a stream object: whether it is an
    instance of [io.TextIOBase] and what its [seekable()] answers. *)
Record stream : Type := Stream {
  is_TextIOBase : bool;
  seekable : bool
}.

Definition check_stream_is_usable (s : stream) : M unit :=
  if is_TextIOBase s
  then raise (TypeError "stream must be binary (no transcoding) and seekable")
  else ret tt.

(** [os.path.samestat] *)
Definition samestat (s1 s2 : stat_result) : bool :=
  (st_ino s1 =? st_ino s2) && (st_dev s1 =? st_dev s2).

(** [Path.samefile] *)
Definition path_samefile (p other_path : path) : M bool :=
  st <- os_stat p ;;
  other_st <- os_stat other_path ;;
  ret (samestat st other_st).

Definition overwrite_msg : string :=
  "Cannot overwrite input file. Open the file with pikepdf.open(..., allow_overwriting_input=True) to allow overwriting the input file.".

Definition check_different_files (file1 file2 : string) : M unit :=
  suppress_FileNotFoundError
    (same <- (if decide (Path file1 = Path file2) then ret true
              else path_samefile (Path file1) (Path file2)) ;;
     if same then raise (ValueError overwrite_msg) else ret tt).

(** How the first [try] statement of [atomic_overwrite] is left when it
    does not raise: through its [return], or past the [pass] of its
    handler. *)
Inductive flow : Type := Returned | FellThrough.

(** The generator function [atomic_overwrite], in its two halves.  [yield_]
    is what a [yield] does: it hands the file object to whoever drives the
    generator and comes back normally or with the exception thrown in.

    Lines 32-44: the attempt in exclusive creation mode. *)
Definition exclusive_create (filename : path) (yield_ : handle → M unit) : M flow :=
  try_except
    (try_except
       (with_file (path_open_xb filename) (λ stream, yield_ stream) ;;
        ret Returned)
       is_FileExistsError
       (λ _, ret FellThrough))
    is_Exception
    (λ e, suppress_FileNotFoundError (path_unlink filename) ;;
          raise e).

(** Line 50: the destination is opened for appending and closed again. *)
Definition probe_writable (filename : path) : M unit :=
  with_file (path_open_ab filename) (λ stream, ret tt).

(** Lines 53-64: the temporary file that is renamed onto the destination. *)
Definition stage_and_rename (filename : path) (yield_ : handle → M unit) : M unit :=
  with_file
    (NamedTemporaryFile (parent filename) (".pikepdf." ++ name filename)%string)
    (λ tf,
       try_except (yield_ tf) is_Exception
         (λ e, file_close tf ;;
               tf_name <- file_name tf ;;
               path_unlink tf_name ;;
               raise e) ;;
       file_flush tf ;;
       file_close tf ;;
       tf_name <- file_name tf ;;
       path_replace tf_name filename).

(** Lines 50-64: the second half of the generator. *)
Definition temp_then_rename (filename : path) (yield_ : handle → M unit) : M unit :=
  probe_writable filename ;;
  stage_and_rename filename yield_.

Definition atomic_overwrite (filename : path) (yield_ : handle → M unit) : M unit :=
  r <- exclusive_create filename yield_ ;;
  match r with
  | Returned => ret tt
  | FellThrough => temp_then_rename filename yield_
  end.

(** ** The [with] statement over a [contextmanager] generator *)

(** The first [yield] runs the body of the [with] statement and resumes
    the generator with its outcome.  A second [yield] ends the [with]
    statement.  From CPython 3.12 on [__exit__] then closes the generator:
    [GeneratorExit] is raised at that [yield] and unwinds the frame.
    Before 3.12 the generator is left where it is: the frame is given up
    with the same signal, which no handler of the generator catches, but
    it is [suspended], so that its [with] statements are not left. *)
Definition gen_yield (body : handle → M unit) (h : handle) : M unit := λ w,
  match gen w with
  | NotYielded =>
      match body h (set_gen (Yielded None) w) with
      | (w1, Ok _) => (w1, Ok tt)
      | (w1, Raise e) => (set_gen (Yielded (Some e)) w1, Raise e)
      end
  | Yielded t | YieldedAgain t =>
      (set_gen (YieldedAgain t) w, Raise GeneratorExit)
  end.

(** [with atomic_overwrite(filename) as f: body(f)], following
    [contextlib._GeneratorContextManager]: an exception before the first
    [yield] leaves [__enter__]; after one [yield] the outcome of the
    generator is the outcome of the statement (a generator that returns
    after an exception was thrown in suppresses it); a second [yield] makes
    [__exit__] raise [RuntimeError], from CPython 3.12 on after closing the
    generator, where an error of the closing takes the place of the
    [RuntimeError]. *)
Definition with_atomic_overwrite (filename : path) (body : handle → M unit) : M unit := λ w,
  match atomic_overwrite filename (gen_yield body) (set_gen NotYielded w) with
  | (w1, r) =>
      match gen w1 with
      | NotYielded =>
          match r with
          | Raise e => (w1, Raise e)
          | Ok _ => (w1, Raise (RuntimeError "generator didn't yield"))
          end
      | Yielded _ => (w1, r)
      | YieldedAgain t =>
          match r with
          | Ok _ | Raise GeneratorExit =>
              (w1, Raise (RuntimeError
                            (match t with
                             | Some _ => "generator didn't stop after throw()"
                             | None => "generator didn't stop"
                             end)))
          | Raise e => (w1, Raise e)
          end
      end
  end.

(** ** Write scopes *)

Fixpoint write_all (h : handle) (chunks : list (list byte)) : M unit :=
  match chunks with
  | [] => ret tt
  | c :: cs => file_write h c ;; write_all h cs
  end.

(** A caller's write scope that writes [chunks] through the handle it is
    given and then either completes or raises [exc]. *)
Definition write_scope (chunks : list (list byte)) (exc : option exn) (h : handle) : M unit :=
  write_all h chunks ;;
  match exc with
  | Some e => raise e
  | None => ret tt
  end.

(** A write scope that removes the file behind its handle and then raises
    [e]. *)
Definition unlink_then_raise (e : exn) (h : handle) : M unit :=
  f_name <- file_name h ;;
  path_unlink f_name ;;
  raise e.

(** ** Notions the statements use *)

(** [p] exists and leads, links followed, to the file or directory [i]. *)
Definition leads_to (w : world) (p : path) (i : file_id) : Prop :=
  (∃ q d, resolve w p = TFile q i d) ∨ (∃ q, resolve w p = TDir q i).

(** [stat] reports [p] missing: [p] leads to an entry that is not there,
    in a directory that is, or below a directory that is not. *)
Definition reported_missing (w : world) (p : path) : Prop :=
  ∃ q, resolve w p = TMissing q ∧ lookup_error w q = FileNotFoundError.

(** The destination [p] exists: it does not lead to a missing entry. *)
Definition not_missing (w : world) (p : path) : Prop :=
  ∀ q, resolve w p ≠ TMissing q.

(** Two paths name the same file when they are equal as paths, or when
    both exist and lead to one device and inode. *)
Definition same_file (w : world) (p q : path) : Prop :=
  p = q ∨ ∃ i, leads_to w p i ∧ leads_to w q i.

(** The staging-name pattern of destination [D]: a sibling of [D] whose
    name starts with ".pikepdf." followed by the name of [D]. *)
Definition is_staging (D p : path) : bool :=
  bool_decide (parent p = parent D) &&
  String.prefix (".pikepdf." ++ name D)%string (name p).

(** No staging file of [D] is left in [w'] that was not already there in
    [w]. *)
Definition no_staging_left (D : path) (w w' : world) : Prop :=
  ∀ p, is_staging D p = true → names w !! p = None → names w' !! p = None.

(** [h] is a just opened file object, named [nm], on the new, empty
    regular file at the entry [p]. *)
Definition created_as (p nm : path) (h : handle) (w w' : world) : Prop :=
  ∃ i : file_id,
    names w !! p = None ∧ inodes w !! i = None ∧ (∀ q, names w !! q ≠ Some i) ∧
    names w' = <[p := i]> (names w) ∧
    inodes w' = <[i := IFile []]> (inodes w) ∧
    handles w' = handles w ++ [OFile nm i [] false] ∧
    h = length (handles w).

Definition created (p : path) (h : handle) (w w' : world) : Prop :=
  created_as p p h w w'.

(** Nothing the module can observe of the file system has changed. *)
Definition untouched (w w' : world) : Prop :=
  names w' = names w ∧ inodes w' = inodes w ∧ handles w' = handles w.

(** The file objects of [l] have all been closed. *)
Definition all_closed (l : list ofile) : Prop :=
  Forall (λ f, of_closed f = true) l.

(** The table of file objects is [hs] followed by one file object on the
    file [i] opened under the name [T], closed or not as [cl] says. *)
Definition top (hs : list ofile) (T : path) (i : file_id) (cl : bool) (w : world) : Prop :=
  ∃ buf, handles w = hs ++ [OFile T i buf cl].

(** From [w] to [w'] no file but [i] has changed and no name but [T];
    [T] is bound as before or not at all, and [i] has not become a symbolic
    link. *)
Definition tracks (T : path) (i : file_id) (w w' : world) : Prop :=
  (∀ k, k ≠ i → inodes w' !! k = inodes w !! k) ∧
  (∀ p, p ≠ T → names w' !! p = names w !! p) ∧
  (names w' !! T = names w !! T ∨ names w' !! T = None) ∧
  (∀ t, inodes w' !! i = Some (ILink t) → inodes w !! i = Some (ILink t)).

(** The generator is not beyond its first [yield]. *)
Definition yielded_at_most_once (w : world) : Prop :=
  ∀ t, gen w ≠ YieldedAgain t.

(** A computation that leaves the interpreter what it is. *)
Definition keeps_interpreter {A} (m : M A) : Prop :=
  ∀ w w' r, m w = (w', r) → closes_generator w' = closes_generator w.

(** ** Concrete worlds *)

Definition cwd_id : file_id := (1, 2).

Definition b (s : string) : list byte := list_byte_of_string s.

Definition out_pdf : path := Path "out.pdf".

(** A working directory with nothing in it. *)
Definition empty_dir_world : world :=
  World {[ ([] : path) := cwd_id ]} {[ cwd_id := IDir ]} [] [] ["a1b2c3d4"; "e5f6g7h8"] []
        NotYielded true.

(** The same directory holding [out.pdf] with content [b"old"]. *)
Definition old_file_world : world :=
  World {[ ([] : path) := cwd_id; ["out.pdf"] := (1, 7) ]}
        {[ cwd_id := IDir; ((1, 7) : file_id) := IFile (b "old") ]}
        [] [] ["a1b2c3d4"; "e5f6g7h8"] [] NotYielded true.

(** [out.pdf] and [link.pdf] are two names of one file. *)
Definition hard_link_world : world :=
  World {[ ([] : path) := cwd_id; ["out.pdf"] := (1, 7); ["link.pdf"] := (1, 7) ]}
        {[ cwd_id := IDir; ((1, 7) : file_id) := IFile (b "old") ]}
        [] [] [] [] NotYielded true.

(** [out.pdf] is a regular file and [link.pdf] a symbolic link to it. *)
Definition symlink_world : world :=
  World {[ ([] : path) := cwd_id; ["out.pdf"] := (1, 7); ["link.pdf"] := (1, 9) ]}
        {[ cwd_id := IDir; ((1, 7) : file_id) := IFile (b "old");
           ((1, 9) : file_id) := ILink ["out.pdf"] ]}
        [] [] ["a1b2c3d4"; "e5f6g7h8"] [] NotYielded true.

(** [out.pdf] is a symbolic link to [target.pdf], which does not exist. *)
Definition dangling_link_world : world :=
  World {[ ([] : path) := cwd_id; ["out.pdf"] := (1, 9) ]}
        {[ cwd_id := IDir; ((1, 9) : file_id) := ILink ["target.pdf"] ]}
        [] [] ["a1b2c3d4"; "e5f6g7h8"] [] NotYielded true.

(** [pdfs] is a symbolic link to the directory [store]. *)
Definition linked_dir_world : world :=
  World {[ ([] : path) := cwd_id; ["store"] := (1, 5); ["pdfs"] := (1, 9) ]}
        {[ cwd_id := IDir; ((1, 5) : file_id) := IDir;
           ((1, 9) : file_id) := ILink ["store"] ]}
        [] [] ["a1b2c3d4"; "e5f6g7h8"] [] NotYielded true.

(** A world as an interpreter before CPython 3.12 presents it. *)
Definition before_312 (w : world) : world := set_closes_generator false w.

(** The same world with an environment that lets the sixth I/O operation
    of the session, the [flush] of line 62, fail with ENOSPC. *)
Definition disk_full_world : world :=
  set_faults [None; None; None; None; None; Some (OSError 28)] old_file_world.

(** The world of [old_file_world] in which the process has run out of file
    descriptors: the first I/O operation fails with EMFILE. *)
Definition out_of_descriptors_world : world :=
  set_faults [Some (OSError 24)] old_file_world.


Definition outcome (r : world * result unit) :
    option (list byte) * list (path * file_id) * list op * result unit :=
  (read_file (fst r) out_pdf, map_to_list (names (fst r)), rev (log (fst r)), snd r).

(** ** Tactics *)

(** Projections of an updated world compute. *)
Ltac wsimpl :=
  cbn [names inodes handles faults rng log gen closes_generator
       set_names set_inodes set_handles set_faults set_rng add_log set_gen
       set_closes_generator
       fst snd of_name of_id of_buf of_closed] in *.

(** A hypothesis that says a computation which cannot return normally
    did so: every way through it is taken, each ends in a contradiction. *)
Ltac dead_end H :=
  repeat (cbv beta iota in H;
          try discriminate H;
          match type of H with
          | context [match ?x with (_, _) => _ end] =>
              lazymatch x with
              | context [match _ with (_, _) => _ end] => fail
              | _ => destruct x as [? [?|?]]
              end
          | context [if suspended ?w then _ else _] => destruct (suspended w)
          end);
  try discriminate H.

(** * Part II: what the code does *)

(** ** Sanity checks: the scenarios of the specification *)

Example scenario_A :
  outcome (with_atomic_overwrite out_pdf (write_scope [b "hello"] None) empty_dir_world)
  = (Some (b "hello"),
     [(["out.pdf"], (1, 3)); ([], (1, 2))],
     [OpOpenX ["out.pdf"]; OpWrite 0%nat; OpClose 0%nat],
     Ok tt).
Proof. vm_compute. reflexivity. Qed.

Example scenario_B :
  outcome (with_atomic_overwrite out_pdf
             (write_scope [b "ne"] (Some (ValueError "boom"))) old_file_world)
  = (Some (b "old"),
     [(["out.pdf"], (1, 7)); ([], (1, 2))],
     [OpOpenX ["out.pdf"]; OpOpenA ["out.pdf"]; OpClose 0%nat;
      OpMkstemp [".pikepdf.out.pdfa1b2c3d4"]; OpWrite 1%nat; OpClose 1%nat;
      OpUnlink [".pikepdf.out.pdfa1b2c3d4"]],
     Raise (ValueError "boom")).
Proof. vm_compute. reflexivity. Qed.

Example scenario_C :
  outcome (with_atomic_overwrite out_pdf (write_scope [b "new-content"] None) old_file_world)
  = (Some (b "new-content"),
     [(["out.pdf"], (1, 8)); ([], (1, 2))],
     [OpOpenX ["out.pdf"]; OpOpenA ["out.pdf"]; OpClose 0%nat;
      OpMkstemp [".pikepdf.out.pdfa1b2c3d4"]; OpWrite 1%nat; OpFlush 1%nat;
      OpClose 1%nat; OpReplace [".pikepdf.out.pdfa1b2c3d4"] ["out.pdf"]],
     Ok tt).
Proof. vm_compute. reflexivity. Qed.

Example scenario_D :
  outcome (with_atomic_overwrite (Path "nodir/out.pdf") (write_scope [b "x"] None)
             empty_dir_world)
  = (None, [([], (1, 2))],
     [OpOpenX ["nodir"; "out.pdf"]; OpUnlink ["nodir"; "out.pdf"]],
     Raise FileNotFoundError).
Proof. vm_compute. reflexivity. Qed.

Example scenario_E :
  outcome (with_atomic_overwrite out_pdf
             (write_scope [b "ne"] (Some (ValueError "boom"))) empty_dir_world)
  = (None, [([], (1, 2))],
     [OpOpenX ["out.pdf"]; OpWrite 0%nat; OpClose 0%nat; OpUnlink ["out.pdf"]],
     Raise (ValueError "boom")).
Proof. vm_compute. reflexivity. Qed.

(** A destination in a directory that is reached through a symbolic link
    is created there; below a dangling link the open fails with ENOENT. *)
Example session_through_linked_directory :
  let s := with_atomic_overwrite (Path "pdfs/out.pdf") (write_scope [b "ne"] None)
             linked_dir_world in
  snd s = Ok tt ∧ read_file (fst s) (Path "pdfs/out.pdf") = Some (b "ne") ∧
  rev (log (fst s)) = [OpOpenX ["pdfs"; "out.pdf"]; OpWrite 0%nat; OpClose 0%nat] ∧
  snd (with_atomic_overwrite (Path "out.pdf/x.pdf") (write_scope [b "ne"] None)
         dangling_link_world) = Raise FileNotFoundError.
Proof. vm_compute. by split_and!. Qed.

Example Path_normalises :
  Path "/a//b/./c" = ["/"; "a"; "b"; "c"] ∧ Path "//a" = ["//"; "a"] ∧
  Path "///a" = ["/"; "a"] ∧ Path "./out.pdf" = Path "out.pdf" ∧
  parent (Path "out.pdf") = [] ∧ name (Path "x/out.pdf") = "out.pdf".
Proof. repeat split. Qed.

(** ** Groundwork: lookups *)

Lemma follow_eq (n : nat) (w : world) (p : path) :
  follow n w p =
  match names w !! p with
  | None => TMissing p
  | Some i =>
      match inodes w !! i with
      | Some (IFile d) => TFile p i d
      | Some IDir => TDir p i
      | Some (ILink t) => match n with O => TLoop | S n' => follow n' w t end
      | None => TStale p i
      end
  end.
Proof. by destruct n. Qed.

(** Lookups see the names and the inodes, nothing else. *)
Lemma follow_frame (w w' : world) (n : nat) :
  names w' = names w → inodes w' = inodes w →
  ∀ p, follow n w' p = follow n w p.
Proof.
  intros Hn Hi. induction n as [|n IH]; intros p; simpl; rewrite Hn, Hi; [done |].
  destruct (names w !! p) as [i|]; [| done].
  destruct (inodes w !! i) as [[| |t]|]; auto.
Qed.

Lemma lookup_error_frame (w w' : world) (p : path) :
  names w' = names w → inodes w' = inodes w →
  lookup_error w' p = lookup_error w p.
Proof.
  intros Hn Hi.
  assert (∀ q, resolve w' q = resolve w q) as Hr by (intros q; by apply follow_frame).
  unfold lookup_error. generalize (length p) as n. intros n. revert p.
  induction n as [|n IH]; intros p; cbn [lookup_error_from]; rewrite Hn, Hr; [done |].
  destruct (names w !! parent p); [done | apply IH].
Qed.

Lemma stat_of_frame (w w' : world) (p : path) :
  names w' = names w → inodes w' = inodes w → stat_of w' p = stat_of w p.
Proof.
  intros Hn Hi. unfold stat_of, resolve. rewrite (follow_frame w w') by done.
  destruct (follow 40 w p); try done. by rewrite (lookup_error_frame w w').
Qed.

(** A failed lookup is an [OSError] that is not a [FileExistsError]. *)
Lemma lookup_error_cases (w : world) (p : path) :
  lookup_error w p = FileNotFoundError ∨ lookup_error w p = NotADirectoryError ∨
  lookup_error w p = OSError 116 ∨ lookup_error w p = OSError 40.
Proof.
  unfold lookup_error. generalize (length p) as n. intros n. revert p.
  induction n as [|n IH]; intros p; simpl.
  - destruct (names w !! parent p) as [d|]; [| by auto].
    destruct (resolve w (parent p)); by auto 6.
  - destruct (names w !! parent p) as [d|]; [| by apply IH].
    destruct (resolve w (parent p)); by auto 6.
Qed.

Lemma lookup_error_class (w : world) (p : path) :
  is_FileExistsError (lookup_error w p) = false ∧ is_Exception (lookup_error w p) = true.
Proof. by destruct (lookup_error_cases w p) as [->|[->|[->| ->]]]. Qed.

Lemma resolve_frame (w w' : world) (p : path) :
  names w' = names w → inodes w' = inodes w → resolve w' p = resolve w p.
Proof. intros Hn Hi. by apply follow_frame. Qed.

(** A directory is where its path ends. *)
Lemma resolve_entry_dir (w : world) (p : path) (d : file_id) :
  names w !! p = Some d → inodes w !! d = Some IDir → resolve w p = TDir p d.
Proof. intros Hp Hd. unfold resolve. by rewrite follow_eq, Hp, Hd. Qed.

Lemma resolve_dir (w : world) (p : path) :
  is_dir w p = true → ∃ d, names w !! p = Some d ∧ resolve w p = TDir p d.
Proof.
  unfold is_dir, resolve. intros H. rewrite follow_eq.
  destruct (names w !! p) as [d|]; [| done].
  destruct (inodes w !! d) as [[| |]|]; try done. by eauto.
Qed.

(** Where following links ends. *)
Lemma follow_TFile (n : nat) (w : world) :
  ∀ p q i d, follow n w p = TFile q i d →
    names w !! q = Some i ∧ inodes w !! i = Some (IFile d) ∧
    is_Some (names w !! p) ∧ (q = p ∨ is_link w p = true).
Proof.
  induction n as [|n IH]; intros p q i d H; rewrite follow_eq in H; unfold is_link;
    destruct (names w !! p) as [j|] eqn:Hp; try done;
    destruct (inodes w !! j) as [[| |t]|] eqn:Hj; try done.
  - injection H as <- <- <-. by eauto.
  - injection H as <- <- <-. by eauto.
  - apply IH in H as (? & ? & _). by eauto.
Qed.

Lemma follow_TMissing (n : nat) (w : world) :
  ∀ p q, follow n w p = TMissing q →
    names w !! q = None ∧ (q = p ∨ is_link w p = true).
Proof.
  induction n as [|n IH]; intros p q H; rewrite follow_eq in H; unfold is_link;
    destruct (names w !! p) as [j|] eqn:Hp;
    try (injection H as <-; by auto);
    destruct (inodes w !! j) as [[| |t]|] eqn:Hj; try done.
  apply IH in H as (? & _). by auto.
Qed.

(** An entry that is not a symbolic link is where the path ends. *)
Lemma follow_not_link (n : nat) (w : world) (p : path) :
  is_link w p = false →
  follow n w p =
  match names w !! p with
  | None => TMissing p
  | Some i =>
      match inodes w !! i with
      | Some (IFile d) => TFile p i d
      | Some IDir => TDir p i
      | _ => TStale p i
      end
  end.
Proof.
  unfold is_link. intros H. rewrite follow_eq.
  destruct (names w !! p) as [i|]; [| done].
  by destruct (inodes w !! i) as [[| |t]|].
Qed.

Lemma resolve_regular (w : world) (p : path) (c : list byte) :
  read_file w p = Some c →
  ∃ i, names w !! p = Some i ∧ inodes w !! i = Some (IFile c) ∧
       resolve w p = TFile p i c ∧ is_link w p = false.
Proof.
  unfold read_file, resolve, is_link. intros H. rewrite follow_eq.
  destruct (names w !! p) as [i|]; [| done].
  destruct (inodes w !! i) as [[|d|t]|] eqn:Hi; try done. injection H as ->.
  exists i. by split_and!.
Qed.

(** A missing entry of an existing directory is reported as ENOENT, one
    below a regular file as ENOTDIR. *)
Lemma lookup_error_in_dir (w : world) (p : path) :
  is_dir w (parent p) = true → lookup_error w p = FileNotFoundError.
Proof.
  intros (d & Hd & Hr)%resolve_dir. unfold lookup_error.
  destruct (length p); cbn [lookup_error_from]; by rewrite Hd, Hr.
Qed.

Lemma lookup_error_below_file (w : world) (p : path) (c : list byte) :
  read_file w (parent p) = Some c → lookup_error w p = NotADirectoryError.
Proof.
  intros (i & Hi & _ & Hr & _)%resolve_regular. unfold lookup_error.
  destruct (length p); cbn [lookup_error_from]; by rewrite Hi, Hr.
Qed.

Lemma resolve_unbound (w : world) (p : path) :
  names w !! p = None → resolve w p = TMissing p.
Proof. intros H. unfold resolve. by rewrite follow_eq, H. Qed.

(** What [stat] answers. *)
Lemma stat_of_leads_to (w : world) (p : path) (i : file_id) :
  leads_to w p i → stat_of w p = Ok (StatResult (fst i) (snd i)).
Proof. unfold stat_of. by intros [(q & d & ->)|(q & ->)]. Qed.

Lemma stat_of_Ok (w : world) (p : path) (st : stat_result) :
  stat_of w p = Ok st → ∃ i, leads_to w p i ∧ st = StatResult (fst i) (snd i).
Proof.
  unfold stat_of, leads_to. intros H.
  destruct (resolve w p) as [q i d|q i|q i|q|] eqn:Hr; try done;
    injection H as <-; exists i; by eauto.
Qed.

Lemma stat_of_reported_missing (w : world) (p : path) :
  reported_missing w p → stat_of w p = Raise FileNotFoundError.
Proof. unfold stat_of. intros (q & -> & ->). done. Qed.

(** ** The guard checks *)

(** The check looks at nothing but the class of the stream. *)
Lemma check_stream_is_usable_spec (s : stream) (w : world) :
  check_stream_is_usable s w =
  (w, if is_TextIOBase s
      then Raise (TypeError "stream must be binary (no transcoding) and seekable")
      else Ok tt).
Proof. unfold check_stream_is_usable. by destruct (is_TextIOBase s). Qed.

(** C8 (defect): a binary stream that is not seekable passes the check,
    although the docstring and the error message of
    [check_stream_is_usable] require a seekable stream: the check returns
    normally and leaves the world as it was. *)
Theorem check_stream_is_usable_accepts_unseekable (w : world) :
  check_stream_is_usable (Stream false false) w = (w, Ok tt).
Proof. reflexivity. Qed.

Lemma samestat_iff (i j : file_id) :
  samestat (StatResult (fst i) (snd i)) (StatResult (fst j) (snd j)) = true ↔ i = j.
Proof.
  destruct i as [d1 n1], j as [d2 n2]. unfold samestat. simpl.
  rewrite andb_true_iff, !Z.eqb_eq. split.
  - intros [-> ->]. reflexivity.
  - intros [= -> ->]. done.
Qed.

(** With a quiet environment, an I/O operation is its nominal behaviour on
    the world with the operation logged. *)
Lemma io_quiet {A} (o : op) (m : M A) (w : world) :
  faults w = [] → io o m w = m (add_log o w).
Proof. intros H. unfold io. rewrite H. destruct w; simpl in *; by subst. Qed.

(** C10: arguments that are equal as paths make [check_different_files]
    raise [ValueError] in every world, whether or not a file exists at the
    path and whatever the environment would answer: the world, and with it
    the log of I/O operations, is left as it was, so the file system is
    never consulted. *)
Theorem check_different_files_equal_paths (file1 file2 : string) (w : world) :
  Path file1 = Path file2 →
  check_different_files file1 file2 w = (w, Raise (ValueError overwrite_msg)).
Proof.
  intros Heq. unfold check_different_files, suppress_FileNotFoundError, try_except, bind.
  destruct (decide (Path file1 = Path file2)); [reflexivity | contradiction].
Qed.

Lemma check_different_files_equal_paths_witness :
  Path "out.pdf" = Path "./out.pdf" ∧
  names empty_dir_world !! Path "out.pdf" = None ∧
  check_different_files "out.pdf" "./out.pdf" empty_dir_world
  = (empty_dir_world, Raise (ValueError overwrite_msg)).
Proof.
  split; [reflexivity |]. split; [reflexivity |].
  apply (check_different_files_equal_paths "out.pdf" "./out.pdf" empty_dir_world).
  reflexivity.
Defined.

(** The verdict of [check_different_files] in a quiet environment, from
    what [stat] answers for the two paths. *)
Lemma check_different_files_quiet (file1 file2 : string) (w : world) :
  faults w = [] →
  snd (check_different_files file1 file2 w) =
  if decide (Path file1 = Path file2) then Raise (ValueError overwrite_msg)
  else match stat_of w (Path file1) with
       | Raise e => if is_FileNotFoundError e then Ok tt else Raise e
       | Ok st1 =>
           match stat_of w (Path file2) with
           | Raise e => if is_FileNotFoundError e then Ok tt else Raise e
           | Ok st2 =>
               if samestat st1 st2 then Raise (ValueError overwrite_msg) else Ok tt
           end
       end.
Proof.
  intros Hq.
  unfold check_different_files, suppress_FileNotFoundError, try_except, bind.
  destruct (decide (Path file1 = Path file2)) as [|Hne]; [reflexivity |].
  unfold path_samefile, os_stat, bind. rewrite io_quiet by done.
  rewrite (stat_of_frame w (add_log _ w)) by done.
  destruct (stat_of w (Path file1)) as [st1|e1]; [| by destruct (is_FileNotFoundError e1)].
  rewrite io_quiet by done.
  rewrite (stat_of_frame w (add_log _ (add_log _ w))) by done.
  destruct (stat_of w (Path file2)) as [st2|e2]; [| by destruct (is_FileNotFoundError e2)].
  unfold ret. by destruct (samestat st1 st2).
Qed.

(** C9, as amended: with a quiet environment, [check_different_files]
    raises [ValueError] when its arguments name the same file, by equality
    of the paths or by leading, symbolic links followed, to one device and
    inode; it returns normally when both exist and are not the same file;
    it returns normally when the paths differ and [stat] reports the first
    one missing, or the first one exists and [stat] reports the second one
    missing ([FileNotFoundError]: no such entry, a dangling link); and
    any other error of [stat] for an operand it looks at is raised. *)
Theorem check_different_files_spec (file1 file2 : string) (w : world) :
  faults w = [] →
  let r := snd (check_different_files file1 file2 w) in
  (same_file w (Path file1) (Path file2) → r = Raise (ValueError overwrite_msg)) ∧
  ((∃ i, leads_to w (Path file1) i) → (∃ j, leads_to w (Path file2) j) →
   ¬ same_file w (Path file1) (Path file2) → r = Ok tt) ∧
  (Path file1 ≠ Path file2 →
   reported_missing w (Path file1) ∨
   ((∃ i, leads_to w (Path file1) i) ∧ reported_missing w (Path file2)) →
   r = Ok tt) ∧
  (Path file1 ≠ Path file2 →
   ∀ e, is_FileNotFoundError e = false →
        stat_of w (Path file1) = Raise e ∨
        ((∃ i, leads_to w (Path file1) i) ∧ stat_of w (Path file2) = Raise e) →
        r = Raise e).
Proof.
  intros Hq. simpl. rewrite (check_different_files_quiet _ _ _ Hq).
  destruct (decide (Path file1 = Path file2)) as [Heq|Hne].
  { split_and!; try done. intros _ _ Hn. exfalso. apply Hn. by left. }
  split_and!.
  - intros [?|(i & H1 & H2)]; [done |].
    rewrite (stat_of_leads_to _ _ _ H1), (stat_of_leads_to _ _ _ H2).
    by rewrite (proj2 (samestat_iff i i) eq_refl).
  - intros [i H1] [j H2] Hn.
    rewrite (stat_of_leads_to _ _ _ H1), (stat_of_leads_to _ _ _ H2).
    destruct (samestat _ _) eqn:Hs; [| done].
    apply samestat_iff in Hs as ->. exfalso. apply Hn. right. by eauto.
  - intros _ [H1|[[i H1] H2]].
    + by rewrite (stat_of_reported_missing _ _ H1).
    + by rewrite (stat_of_leads_to _ _ _ H1), (stat_of_reported_missing _ _ H2).
  - intros _ e He [H1|[[i H1] H2]].
    + by rewrite H1, He.
    + by rewrite (stat_of_leads_to _ _ _ H1), H2, He.
Qed.

Lemma check_different_files_spec_witness :
  faults symlink_world = [] ∧
  snd (check_different_files "out.pdf" "link.pdf" symlink_world)
  = Raise (ValueError overwrite_msg) ∧
  snd (check_different_files "out.pdf" "link.pdf" hard_link_world)
  = Raise (ValueError overwrite_msg) ∧
  snd (check_different_files "out.pdf" "missing.pdf" hard_link_world) = Ok tt ∧
  snd (check_different_files "out.pdf/x" "link.pdf" hard_link_world)
  = Raise NotADirectoryError.
Proof.
  split; [reflexivity |]. split_and!.
  - apply (proj1 (check_different_files_spec "out.pdf" "link.pdf" symlink_world eq_refl)).
    right. exists (1, 7). split; left; exists ["out.pdf"], (b "old"); vm_compute; reflexivity.
  - apply (proj1 (check_different_files_spec "out.pdf" "link.pdf" hard_link_world eq_refl)).
    right. exists (1, 7). split; left; eexists _, (b "old"); vm_compute; reflexivity.
  - apply (proj1 (proj2 (proj2
             (check_different_files_spec "out.pdf" "missing.pdf" hard_link_world eq_refl))));
      [discriminate |].
    right. split.
    + exists (1, 7). left. exists ["out.pdf"], (b "old"). vm_compute. reflexivity.
    + exists ["missing.pdf"]. split; vm_compute; reflexivity.
  - apply (proj2 (proj2 (proj2
             (check_different_files_spec "out.pdf/x" "link.pdf" hard_link_world eq_refl))));
      [discriminate | reflexivity |].
    left. vm_compute. reflexivity.
Defined.

(** C9, as stated, fails: a path below a regular file does not exist, and
    is no other file's name, yet [check_different_files] does not return
    normally: the [NotADirectoryError] of [stat] is not a
    [FileNotFoundError] and is raised. *)
Lemma path_below_a_file_is_an_error :
  faults old_file_world = [] ∧
  names old_file_world !! Path "out.pdf/x" = None ∧
  ¬ same_file old_file_world (Path "out.pdf/x") (Path "other.pdf") ∧
  snd (check_different_files "out.pdf/x" "other.pdf" old_file_world)
  = Raise NotADirectoryError.
Proof.
  split_and!; [reflexivity | reflexivity | | vm_compute; reflexivity].
  intros [H|(i & [(q & d & H)|(q & H)] & _)]; [discriminate H | |];
    vm_compute in H; discriminate H.
Qed.

(** ** Groundwork: fresh inodes, buffers, handles *)

Lemma new_file_id_no_inode (w : world) (d : file_id) :
  inodes w !! new_file_id w d = None.
Proof.
  destruct (inodes w !! new_file_id w d) eqn:H; [| done]. exfalso.
  apply (is_fresh (used_inos w)). unfold used_inos.
  apply elem_of_union_l, elem_of_map. exists (new_file_id w d). split; [done |].
  apply elem_of_dom. eauto.
Qed.

Lemma new_file_id_no_name (w : world) (d : file_id) (p : path) :
  names w !! p ≠ Some (new_file_id w d).
Proof.
  intros H. apply (is_fresh (used_inos w)). unfold used_inos.
  apply elem_of_union_r, elem_of_map. exists (new_file_id w d). split; [done |].
  apply elem_of_map_img. eauto.
Qed.

Lemma lookup_new_handle (hs : list ofile) (f : ofile) :
  (hs ++ [f]) !! length hs = Some f.
Proof. by apply list_lookup_middle. Qed.

Lemma lookup_insert_new_handle (hs : list ofile) (f g : ofile) :
  <[length hs := g]> (hs ++ [f]) !! length hs = Some g.
Proof. apply list_lookup_insert_eq. rewrite length_app. simpl. lia. Qed.

Lemma insert_new_handle (hs : list ofile) (f g : ofile) :
  <[length hs := g]> (hs ++ [f]) = hs ++ [g].
Proof. rewrite insert_app_r_alt by lia. by rewrite Nat.sub_diag. Qed.

Lemma file_name_eq (h : handle) (f : ofile) (w : world) :
  handles w !! h = Some f → file_name h w = (w, Ok (of_name f)).
Proof. intros Hh. unfold file_name. by rewrite Hh. Qed.

Lemma file_close_closed (h : handle) (f : ofile) (w : world) :
  handles w !! h = Some f → of_closed f = true → file_close h w = (w, Ok tt).
Proof. intros Hh Hc. unfold file_close. by rewrite Hh, Hc. Qed.

Lemma bind_raise_not_Ok {A B} (m : M A) (e : exn) (w w' : world) (x : B) :
  bind m (λ _, raise e) w ≠ (w', Ok x).
Proof. unfold bind, raise. by destruct (m w) as [w1 [a|e1]]. Qed.

(** A generator that has yielded at most once is not suspended for good. *)
Lemma not_suspended (w : world) : yielded_at_most_once w → suspended w = false.
Proof. unfold suspended. intros H. destruct (gen w) as [|t|t] eqn:Hg; [done.. |]. by destruct (H t). Qed.

Lemma not_suspended_Yielded (w : world) (t : option exn) :
  gen w = Yielded t → suspended w = false.
Proof. unfold suspended. by intros ->. Qed.

Lemma not_suspended_NotYielded (w : world) : gen w = NotYielded → suspended w = false.
Proof. unfold suspended. by intros ->. Qed.

Lemma quiet_hd (w : world) : faults w = [] → hd None (faults w) = None.
Proof. by intros ->. Qed.

Lemma quiet_tl (w w' : world) : faults w = [] → faults w' = tl (faults w) → faults w' = [].
Proof. by intros -> ->. Qed.

Lemma prefix_length (a s : string) :
  String.prefix a s = true → (String.length a <= String.length s)%nat.
Proof.
  revert s. induction a as [|x a IH]; intros s H; simpl; [lia |].
  destruct s as [|y s]; simpl in H; [done |].
  destruct (Ascii.ascii_dec x y); [| done]. apply IH in H. simpl. lia.
Qed.

Lemma append_length (a s : string) :
  String.length (a ++ s)%string = (String.length a + String.length s)%nat.
Proof. induction a as [|x a IH]; simpl; [done | by rewrite IH]. Qed.

(** A staging name is never the destination itself. *)
Lemma is_staging_ne (D p : path) : is_staging D p = true → p ≠ D.
Proof.
  unfold is_staging. intros [_ H]%andb_true_iff ->.
  apply prefix_length in H. rewrite append_length in H. simpl in H. lia.
Qed.

(** The names [NamedTemporaryFile] draws for [D] match the staging
    pattern of [D]. *)
Lemma prefix_append (a s : string) : String.prefix a (a ++ s)%string = true.
Proof.
  induction a as [|x a IH]; simpl; [by destruct s |].
  by destruct (Ascii.ascii_dec x x).
Qed.

Lemma is_staging_joinpath (D : path) (cand : string) :
  is_staging D (joinpath (parent D) ((".pikepdf." ++ name D) ++ cand)%string) = true.
Proof.
  unfold is_staging, joinpath. apply andb_true_iff.
  set (x := ((".pikepdf." ++ name D) ++ cand)%string).
  split.
  - apply bool_decide_eq_true. destruct (parent D) as [|y l]; simpl.
    + done.
    + destruct (l ++ [x]) eqn:Hl; [by destruct l |]. rewrite <- Hl.
      by rewrite removelast_last.
  - assert (Hn : name (parent D ++ [x]) = x).
    { destruct (parent D) as [|y l]; simpl; [done |].
      destruct (l ++ [x]) eqn:Hl; [by destruct l |]. rewrite <- Hl.
      by rewrite last_last. }
    rewrite Hn. apply prefix_append.
Qed.

(** ** Operations in a quiet environment *)

Section Quiet.

(** A world whose environment injects no failure. *)
Context (w : world) (Hq : faults w = []).

Lemma path_open_xb_quiet_new (p q : path) (d : file_id) :
  names w !! p = None → resolve w (parent p) = TDir q d →
  path_open_xb p w =
  (set_handles (λ hs, hs ++ [OFile p (new_file_id w d) [] false])
     (set_inodes (insert (new_file_id w d) (IFile []))
        (set_names (insert p (new_file_id w d)) (add_log (OpOpenX p) w))),
   Ok (length (handles w))).
Proof.
  intros Hp Hd. unfold path_open_xb. rewrite io_quiet by done.
  unfold excl_create, create_file, new_handle. wsimpl. rewrite Hp.
  rewrite (resolve_frame w (add_log _ w)) by done.
  by rewrite Hd.
Qed.

Lemma path_open_xb_quiet_exists (p : path) :
  is_Some (names w !! p) →
  path_open_xb p w = (add_log (OpOpenX p) w, Raise FileExistsError).
Proof.
  intros [i Hp]. unfold path_open_xb. rewrite io_quiet by done.
  unfold excl_create. wsimpl. by rewrite Hp.
Qed.

Lemma path_open_xb_quiet_no_dir (p : path) :
  names w !! p = None → (∀ q d, resolve w (parent p) ≠ TDir q d) →
  ∃ e, path_open_xb p w = (add_log (OpOpenX p) w, Raise e) ∧
       is_FileExistsError e = false.
Proof.
  intros Hp Hd. unfold path_open_xb. rewrite io_quiet by done.
  unfold excl_create, create_file. wsimpl. rewrite Hp.
  rewrite (resolve_frame w (add_log _ w)) by done.
  destruct (resolve w (parent p)) as [| q d | | |] eqn:Hr;
    try (eexists; split; [done | apply lookup_error_class]).
  by destruct (Hd q d).
Qed.

Lemma file_close_quiet (h : handle) (f : ofile) :
  handles w !! h = Some f → of_closed f = false →
  file_close h w = (mark_closed h (write_back h f (add_log (OpClose h) w)), Ok tt).
Proof.
  intros Hh Hc. unfold file_close. rewrite Hh, Hc. by rewrite io_quiet.
Qed.

Lemma path_unlink_quiet_file (p : path) (i : file_id) :
  names w !! p = Some i → is_dir_id w i = false →
  path_unlink p w = (set_names (delete p) (add_log (OpUnlink p) w), Ok tt).
Proof.
  intros Hp Hi. unfold path_unlink. rewrite io_quiet by done. wsimpl.
  rewrite Hp. unfold is_dir_id in Hi. by destruct (inodes w !! i) as [[| |]|].
Qed.

End Quiet.

(** ** Operations, whatever the environment does *)

Lemma create_file_spec (p nm : path) (w w' : world) (r : result handle) :
  names w !! p = None →
  create_file p nm w = (w', r) →
  gen w' = gen w ∧ faults w' = faults w ∧ rng w' = rng w ∧ log w' = log w ∧
  match r with
  | Ok h => created_as p nm h w w'
  | Raise e => w' = w
  end.
Proof.
  unfold create_file, new_handle. intros Hp H.
  destruct (resolve w (parent p)) as [| q0 d | | |] eqn:Hd;
    try by injection H as <- <-.
  injection H as <- <-. wsimpl. split_and!; try done.
  exists (new_file_id w d). split_and!; try done.
  - apply new_file_id_no_inode.
  - intros q. apply new_file_id_no_name.
Qed.

Lemma excl_create_spec (p : path) (w w' : world) (r : result handle) :
  excl_create p w = (w', r) →
  gen w' = gen w ∧ faults w' = faults w ∧ rng w' = rng w ∧ log w' = log w ∧
  match r with
  | Ok h => created p h w w'
  | Raise e => w' = w
  end.
Proof.
  unfold excl_create. intros H.
  destruct (names w !! p) as [j|] eqn:Hp.
  { by injection H as <- <-. }
  by apply create_file_spec in H.
Qed.

Lemma path_open_xb_spec (p : path) (w w' : world) (r : result handle) :
  path_open_xb p w = (w', r) →
  gen w' = gen w ∧ faults w' = tl (faults w) ∧ rng w' = rng w ∧
  log w' = OpOpenX p :: log w ∧
  match r with
  | Ok h => created p h w w'
  | Raise e => untouched w w'
  end.
Proof.
  unfold path_open_xb, io. intros H.
  destruct (hd None (faults w)) as [e|].
  { injection H as <- <-. by wsimpl. }
  apply excl_create_spec in H as (Hg & Hf & Hr & Hl & H). wsimpl.
  split_and!; try done. destruct r as [h|e].
  - destruct H as (i & ? & ? & ? & ? & ? & ? & ?). exists i. by wsimpl.
  - subst w'. by wsimpl.
Qed.

Lemma mkstemp_inner_spec (dir : path) (pre : string) (cands : list string) :
  ∀ (w w' : world) (r : result handle),
    mkstemp_inner cands dir pre w = (w', r) →
    gen w' = gen w ∧ (faults w = [] → faults w' = []) ∧
    match r with
    | Ok h => ∃ c, created (joinpath dir (pre ++ c)%string) h w w'
    | Raise e => untouched w w'
    end.
Proof.
  induction cands as [|c cs IH]; intros w w' r H; simpl in H.
  { injection H as <- <-. by split_and!. }
  unfold io in H. wsimpl.
  assert (Htl : faults w = [] → tl (faults w) = []) by (by intros ->).
  destruct (hd None (faults w)) as [e|].
  - destruct (is_FileExistsError e).
    + apply IH in H as (Hg & Hf & H). wsimpl. split_and!; [done | by auto |].
      destruct r as [h|e']; [| done].
      destruct H as (c' & i & ? & ? & ? & ? & ? & ? & ?). by exists c', i.
    + injection H as <- <-. wsimpl. split_and!; by auto.
  - match type of H with context [excl_create ?p ?W] =>
      destruct (excl_create p W) as [w1 [h|e]] eqn:Hx end.
    + injection H as <- <-.
      apply excl_create_spec in Hx as (Hg & Hf & _ & _ & Hx). wsimpl.
      split_and!; [done | intros Hq; rewrite Hf; auto |].
      destruct Hx as (i & ? & ? & ? & ? & ? & ? & ?). by exists c, i.
    + apply excl_create_spec in Hx as (Hg & Hf & _ & _ & ->).
      destruct (is_FileExistsError e).
      * apply IH in H as (Hg' & Hf' & H). wsimpl. split_and!; [done | by auto |].
        destruct r as [h|e']; [| done].
        destruct H as (c' & i & ? & ? & ? & ? & ? & ? & ?). by exists c', i.
      * injection H as <- <-. wsimpl. split_and!; by auto.
Qed.

Lemma NamedTemporaryFile_spec (dir : path) (pre : string) (w w' : world)
    (r : result handle) :
  NamedTemporaryFile dir pre w = (w', r) →
  gen w' = gen w ∧ (faults w = [] → faults w' = []) ∧
  match r with
  | Ok h => ∃ c, created (joinpath dir (pre ++ c)%string) h w w'
  | Raise e => untouched w w'
  end.
Proof. apply mkstemp_inner_spec. Qed.

Lemma path_open_ab_spec (p : path) (w w' : world) (r : result handle) :
  path_open_ab p w = (w', r) →
  gen w' = gen w ∧ faults w' = tl (faults w) ∧ rng w' = rng w ∧
  log w' = OpOpenA p :: log w ∧
  (hd None (faults w) = None → is_Some (read_file w p) → ∃ h, r = Ok h) ∧
  match r with
  | Ok h =>
      (∃ q, resolve w p = TMissing q ∧ (q = p ∨ is_link w p = true) ∧
            created_as q p h w w') ∨
      (∃ i d, inodes w !! i = Some (IFile d) ∧ is_Some (names w !! p) ∧
              (names w !! p = Some i ∨ is_link w p = true) ∧
              names w' = names w ∧ inodes w' = inodes w ∧
              handles w' = handles w ++ [OFile p i [] false] ∧
              h = length (handles w))
  | Raise e => untouched w w'
  end.
Proof.
  unfold path_open_ab, io. intros H.
  destruct (hd None (faults w)) as [e|].
  { injection H as <- <-. by wsimpl. }
  set (w1 := set_faults (tl (faults w)) (add_log (OpOpenA p) w)) in *.
  assert (Hres : resolve w1 p = resolve w p) by (by apply follow_frame).
  rewrite Hres in H.
  assert (Hreg : ∀ c, read_file w p = Some c → ∃ i, resolve w p = TFile p i c).
  { intros c (i & _ & _ & ? & _)%resolve_regular. by eauto. }
  destruct (resolve w p) as [q i d|q i|q i|q|] eqn:Hr.
  - unfold new_handle in H. injection H as <- <-. subst w1. wsimpl.
    apply follow_TFile in Hr as (Hq & Hi & Hsome & Hlink).
    split_and!; try done; [by eauto |]. right. exists i, d.
    split_and!; try done. destruct Hlink as [->|?]; by auto.
  - injection H as <- <-. subst w1. wsimpl. split_and!; try done.
    by intros _ [c (? & ?)%Hreg].
  - injection H as <- <-. subst w1. wsimpl. split_and!; try done.
    by intros _ [c (? & ?)%Hreg].
  - pose proof (follow_TMissing _ _ _ _ Hr) as [Hq Hlink].
    apply create_file_spec in H as (Hg & Hf & Hrn & Hl & Hc); [| done].
    subst w1. wsimpl. split_and!; try done; [by intros _ [c (? & ?)%Hreg] |].
    destruct r as [h|e].
    + left. exists q. by split_and!.
    + subst w'. by wsimpl.
  - injection H as <- <-. subst w1. wsimpl. split_and!; try done.
    by intros _ [c (? & ?)%Hreg].
Qed.

(** Closing an open file object. *)
Lemma file_close_spec (h : handle) (f : ofile) (w w' : world) (r : result unit) :
  handles w !! h = Some f → of_closed f = false →
  file_close h w = (w', r) →
  names w' = names w ∧ gen w' = gen w ∧ rng w' = rng w ∧
  faults w' = tl (faults w) ∧ log w' = OpClose h :: log w ∧
  (hd None (faults w) = None → r = Ok tt) ∧
  match r with
  | Ok _ =>
      inodes w' = match inodes w !! of_id f with
                  | Some (IFile d) => <[of_id f := IFile (d ++ of_buf f)]> (inodes w)
                  | _ => inodes w
                  end ∧
      handles w' = <[h := OFile (of_name f) (of_id f) [] true]> (handles w)
  | Raise e =>
      inodes w' = inodes w ∧
      handles w' = <[h := OFile (of_name f) (of_id f) (of_buf f) true]> (handles w)
  end.
Proof.
  intros Hh Hc H. unfold file_close in H. rewrite Hh, Hc in H. unfold io in H.
  pose proof (lookup_lt_Some _ _ _ Hh) as Hlt.
  destruct (hd None (faults w)) as [e|]; injection H as <- <-;
    unfold mark_closed, write_back; wsimpl.
  - rewrite Hh. by split_and!.
  - rewrite list_lookup_insert_eq by done. wsimpl.
    rewrite list_insert_insert_eq. by split_and!.
Qed.

(** Flushing an open file object. *)
Lemma file_flush_spec (h : handle) (f : ofile) (w w' : world) (r : result unit) :
  handles w !! h = Some f → of_closed f = false →
  file_flush h w = (w', r) →
  names w' = names w ∧ gen w' = gen w ∧ rng w' = rng w ∧
  faults w' = tl (faults w) ∧ log w' = OpFlush h :: log w ∧
  (hd None (faults w) = None → r = Ok tt) ∧
  match r with
  | Ok _ =>
      inodes w' = match inodes w !! of_id f with
                  | Some (IFile d) => <[of_id f := IFile (d ++ of_buf f)]> (inodes w)
                  | _ => inodes w
                  end ∧
      handles w' = <[h := OFile (of_name f) (of_id f) [] false]> (handles w)
  | Raise e => inodes w' = inodes w ∧ handles w' = handles w
  end.
Proof.
  intros Hh Hc H. unfold file_flush in H. rewrite Hh, Hc in H. unfold io in H.
  destruct (hd None (faults w)) as [e|]; injection H as <- <-;
    unfold write_back; wsimpl.
  - by split_and!.
  - rewrite Hc. by split_and!.
Qed.

Lemma path_unlink_spec (p : path) (w w' : world) (r : result unit) :
  path_unlink p w = (w', r) →
  inodes w' = inodes w ∧ handles w' = handles w ∧ gen w' = gen w ∧
  rng w' = rng w ∧ faults w' = tl (faults w) ∧ log w' = OpUnlink p :: log w ∧
  (hd None (faults w) = None →
   match names w !! p with
   | Some i => is_dir_id w i = false → r = Ok tt
   | None => r = Raise (lookup_error w p)
   end) ∧
  match r with
  | Ok _ => names w' = delete p (names w)
  | Raise e => names w' = names w
  end.
Proof.
  unfold path_unlink, io, is_dir_id. intros H.
  destruct (hd None (faults w)) as [e|].
  { injection H as <- <-. by wsimpl. }
  wsimpl. destruct (names w !! p) as [i|].
  - destruct (inodes w !! i) as [[|d|t]|]; injection H as <- <-; by wsimpl.
  - injection H as <- <-. wsimpl. split_and!; try done.
    intros _. f_equal. by apply lookup_error_frame.
Qed.

Lemma path_replace_spec (src dst : path) (w w' : world) (r : result unit) :
  path_replace src dst w = (w', r) →
  inodes w' = inodes w ∧ handles w' = handles w ∧ gen w' = gen w ∧
  rng w' = rng w ∧ faults w' = tl (faults w) ∧
  log w' = OpReplace src dst :: log w ∧
  (hd None (faults w) = None →
   ∀ i j, names w !! src = Some i → names w !! dst = Some j → i ≠ j →
          is_dir_id w i = false → is_dir_id w j = false →
          r = Ok tt ∧ names w' = <[dst := i]> (delete src (names w))) ∧
  match r with
  | Ok _ =>
      ∃ i, names w !! src = Some i ∧
           (names w' = <[dst := i]> (delete src (names w)) ∨
            names w' = names w ∧ names w !! dst = Some i)
  | Raise e => names w' = names w
  end.
Proof.
  unfold path_replace, io. intros H.
  destruct (hd None (faults w)) as [e|].
  { injection H as <- <-. by wsimpl. }
  wsimpl. destruct (names w !! src) as [i|] eqn:Hs; [| injection H as <- <-; by wsimpl].
  destruct (names w !! dst) as [j|] eqn:Hd.
  - case_decide as Hij.
    { injection H as <- <-. wsimpl. split_and!; try done.
      - intros _ i' j' [= <-] [= <-] Hne. done.
      - exists i. split; [done |]. right. by subst j. }
    unfold is_dir_id in *. wsimpl.
    destruct (inodes w !! i) as [[|di|ti]|] eqn:Hi1, (inodes w !! j) as [[|dj|tj]|] eqn:Hj1;
      simpl in H; injection H as <- <-; wsimpl; split_and!; try done.
    all: try (intros _ i' j' [= <-] [= <-] _ Hdi Hdj;
              rewrite ?Hi1 in Hdi; rewrite ?Hj1 in Hdj; done).
    all: try (exists i; by auto).
  - destruct (resolve _ (parent dst)); injection H as <- <-; wsimpl;
      split_and!; try done.
    exists i. by auto.
Qed.

(** A regular file is not missing. *)
Lemma not_missing_regular (w : world) (p : path) (c : list byte) :
  read_file w p = Some c → not_missing w p.
Proof. intros (i & _ & _ & Hr & _)%resolve_regular q. by rewrite Hr. Qed.

(** Closing a file object with nothing in its buffer changes no file. *)
Lemma file_close_empty (h : handle) (nm : path) (i : file_id) (w w' : world)
    (r : result unit) :
  handles w !! h = Some (OFile nm i [] false) →
  file_close h w = (w', r) →
  names w' = names w ∧ inodes w' = inodes w ∧ gen w' = gen w ∧ rng w' = rng w ∧
  faults w' = tl (faults w) ∧ log w' = OpClose h :: log w ∧
  (hd None (faults w) = None → r = Ok tt) ∧
  handles w' = <[h := OFile nm i [] true]> (handles w).
Proof.
  intros Hh H.
  apply (file_close_spec _ _ _ _ _ Hh eq_refl) in H
    as (Hn & Hg & Hr & Hf & Hl & Hdet & H). wsimpl.
  split_and!; try done.
  - destruct r as [[]|e]; destruct H as [Hi _]; [| done]. rewrite Hi.
    destruct (inodes w !! i) as [[|d|t]|] eqn:Hd; try done.
    rewrite app_nil_r. by apply insert_id.
  - by destruct r as [[]|e]; destruct H as [_ ->].
Qed.

(** The probe of line 50: it changes no name and no file when the
    destination is not missing; a missing destination is created, where a
    dangling link points if it is one; when the probe returns normally the
    destination's entry exists and is no directory; in a quiet environment
    it succeeds on a regular file. *)
Lemma probe_writable_spec (D : path) (w w' : world) (r : result unit) :
  probe_writable D w = (w', r) →
  gen w' = gen w ∧ rng w' = rng w ∧
  (r = Ok tt → ∃ j, names w' !! D = Some j ∧ is_dir_id w' j = false) ∧
  (not_missing w D → names w' = names w ∧ inodes w' = inodes w) ∧
  (∀ p, p ≠ D → names w' !! p = names w !! p ∨
                (is_link w D = true ∧ names w !! p = None)) ∧
  (∃ l, log w' = l ++ [OpOpenA D] ++ log w ∧
        (l = [] ∨ l = [OpClose (length (handles w))])) ∧
  (faults w = [] → faults w' = [] ∧ (is_Some (read_file w D) → r = Ok tt)).
Proof.
  unfold probe_writable, with_file, bind. intros H.
  destruct (path_open_ab D w) as [w1 [h|e]] eqn:Ho;
    apply path_open_ab_spec in Ho as (Hg & Hf & Hr & Hl & Hdet & Ho).
  2:{ injection H as <- <-. destruct Ho as (Hn & Hi & Hh).
      split_and!; try done.
      - intros p _. left. by rewrite Hn.
      - exists []. by auto.
      - intros Hq. rewrite Hf, Hq. split; [done |]. intros Hc.
        destruct Hdet as [? ?]; [by rewrite Hq | done | done]. }
  unfold ret in H.
  (* the world the open leaves *)
  assert (Hex : ∃ i, handles w1 !! h = Some (OFile D i [] false) ∧
                     h = length (handles w) ∧
                     (∃ j, names w1 !! D = Some j ∧ is_dir_id w1 j = false) ∧
                     (not_missing w D → names w1 = names w ∧ inodes w1 = inodes w) ∧
                     (∀ p, p ≠ D → names w1 !! p = names w !! p ∨
                                   (is_link w D = true ∧ names w !! p = None))).
  { destruct Ho as [(q & Hres & Hq & i & Hp & Hi & Hfresh & Hn & Hin & Hh & ->)
                   |(i & d & Hi & [j Hj] & Hij & Hn & Hin & Hh & ->)];
      exists i; rewrite Hh.
    - split_and!; [by apply list_lookup_middle | done | | |].
      + unfold is_dir_id. rewrite Hn, Hin. destruct Hq as [->|Hlink].
        * exists i. by rewrite !lookup_insert_eq.
        * unfold is_link in Hlink.
          destruct (names w !! D) as [l|] eqn:Hl'; [| done].
          destruct (inodes w !! l) as [[| |t]|] eqn:Hil; try done.
          assert (D ≠ q) by congruence. assert (l ≠ i) by congruence.
          exists l. by rewrite !lookup_insert_ne, Hil.
      + intros Hnm. by destruct (Hnm q).
      + intros p' Hp'. rewrite Hn. destruct (decide (p' = q)) as [->|Hpq].
        * destruct Hq as [->|Hlink]; [done | by right].
        * left. by apply lookup_insert_ne.
    - split_and!; [by apply list_lookup_middle | done | | done |].
      + rewrite Hn. unfold is_dir_id. rewrite Hin. destruct Hij as [Hij|Hlink].
        * exists i. by rewrite Hij, Hi.
        * exists j. split; [done |]. unfold is_link in Hlink. rewrite Hj in Hlink.
          by destruct (inodes w !! j) as [[| |t]|].
      + intros p' _. left. by rewrite Hn. }
  destruct Hex as (i & Hh & -> & (j & Hj & Hdir) & Hsame & Hothers).
  (* the way out of the [with] statement *)
  assert (Hout : names w' = names w1 ∧ inodes w' = inodes w1 ∧ gen w' = gen w1 ∧
                 rng w' = rng w1 ∧
                 (∃ l, log w' = l ++ log w1 ∧
                       (l = [] ∨ l = [OpClose (length (handles w))])) ∧
                 (faults w1 = [] → faults w' = [] ∧ r = Ok tt)).
  { destruct (suspended w1).
    - injection H as <- <-. split_and!; try done. exists []. by auto.
    - destruct (file_close _ w1) as [w2 r2] eqn:Hc.
      apply (file_close_empty _ _ _ _ _ _ Hh) in Hc
        as (Hn2 & Hi2 & Hg2 & Hr2 & Hf2 & Hl2 & Hdet2 & _).
      assert (Hr' : r = r2) by (destruct r2 as [[]|]; by injection H).
      assert (Hw' : w' = w2) by (destruct r2 as [[]|]; by injection H).
      subst r w'. split_and!; try done.
      + exists [OpClose (length (handles w))]. rewrite Hl2. by auto.
      + intros Hq1. rewrite Hf2, Hq1. split; [done |]. apply Hdet2. by rewrite Hq1. }
  destruct Hout as (Hn' & Hi' & Hg' & Hr' & (l & Hl' & Hll) & Hq').
  split_and!; try congruence.
  - intros _. exists j. unfold is_dir_id in *. by rewrite Hn', Hi'.
  - intros Hnm. destruct (Hsame Hnm). split; congruence.
  - intros p' Hp'. rewrite Hn'. by apply Hothers.
  - exists l. rewrite Hl', Hl. by auto.
  - intros Hq. destruct Hq' as [? ?]; [by rewrite Hf, Hq |]. by auto.
Qed.


(** ** The write scope under the generator protocol *)

(** What [write_all] does to a world in which [h] is an open file object:
    only the buffer of [h] grows, by all the chunks when it returns
    normally; in a quiet environment it does return normally. *)
Lemma write_all_spec (chunks : list (list byte)) :
  ∀ (h : handle) (f : ofile) (w w' : world) (r : result unit),
    handles w !! h = Some f → of_closed f = false →
    write_all h chunks w = (w', r) →
    names w' = names w ∧ inodes w' = inodes w ∧ gen w' = gen w ∧ rng w' = rng w ∧
    (∃ written,
        handles w' = <[h := OFile (of_name f) (of_id f) (of_buf f ++ written) false]> (handles w)
        ∧ (r = Ok tt → written = concat chunks)) ∧
    (faults w = [] → r = Ok tt ∧ faults w' = []).
Proof.
  induction chunks as [|c cs IH]; intros h f w w' r Hh Hc Hw.
  - simpl in Hw. injection Hw as <- <-. split_and!; try done.
    exists []. split; [| done]. rewrite app_nil_r.
    destruct f as [n i bf cl]; simpl in *; subst cl. by rewrite list_insert_id.
  - simpl in Hw. unfold bind, file_write in Hw. rewrite Hh, Hc in Hw.
    unfold io in Hw.
    destruct (hd None (faults w)) as [e|] eqn:Hf.
    + injection Hw as <- <-. wsimpl. split_and!; try done.
      * exists []. split; [| done]. rewrite app_nil_r.
        destruct f as [n i bf cl]; simpl in *; subst cl. by rewrite list_insert_id.
      * intros Hq. rewrite Hq in Hf. discriminate.
    + wsimpl.
      eapply IH in Hw as (Hn & Hi & Hg & Hr & (wr & Hh' & Hwr) & Hq); wsimpl.
      2:{ apply list_lookup_insert_eq. eapply lookup_lt_Some, Hh. }
      2:{ done. }
      split_and!; try done.
      * exists (c ++ wr). rewrite Hh', list_insert_insert_eq, app_assoc. split; [done |].
        intros ->. simpl. by rewrite Hwr.
      * intros Hq'. apply Hq. by rewrite Hq'.
Qed.

(** The state of the exclusively created file right after [write_scope]
    ran on it. *)
Lemma write_scope_spec (chunks : list (list byte)) (exc : option exn)
    (h : handle) (f : ofile) (w w' : world) (r : result unit) :
  handles w !! h = Some f → of_closed f = false →
  write_scope chunks exc h w = (w', r) →
  names w' = names w ∧ inodes w' = inodes w ∧ gen w' = gen w ∧ rng w' = rng w ∧
  (∃ written,
      handles w' = <[h := OFile (of_name f) (of_id f) (of_buf f ++ written) false]> (handles w)
      ∧ (r = Ok tt → written = concat chunks ∧ exc = None)
      ∧ (faults w = [] → written = concat chunks)) ∧
  (faults w = [] →
   faults w' = [] ∧ r = match exc with Some e => Raise e | None => Ok tt end).
Proof.
  intros Hh Hc Hw. unfold write_scope, bind in Hw.
  destruct (write_all h chunks w) as [w1 r1] eqn:Hwa.
  apply (write_all_spec _ _ _ _ _ _ Hh Hc) in Hwa
    as (Hn & Hi & Hg & Hr & (wr & Hh' & Hwr) & Hq).
  assert (Hqw : faults w = [] → wr = concat chunks).
  { intros Hq'. apply Hwr. by destruct (Hq Hq'). }
  destruct r1 as [[]|e1].
  - destruct exc as [e|]; injection Hw as <- <-; split_and!; try done.
    + exists wr. by split_and!.
    + intros Hq'. by destruct (Hq Hq').
    + exists wr. split_and!; [done | | done]. intros _. split; [by apply Hwr | done].
    + intros Hq'. by destruct (Hq Hq').
  - injection Hw as <- <-. split_and!; try done.
    + exists wr. by split_and!.
    + intros Hq'. by destruct (Hq Hq').
Qed.

(** The first [yield] runs the write scope on the open file object [h];
    a later [yield] only raises [GeneratorExit]. *)
Lemma gen_yield_spec (chunks : list (list byte)) (exc : option exn)
    (h : handle) (f : ofile) (w w' : world) (r : result unit) :
  handles w !! h = Some f → of_closed f = false →
  gen_yield (write_scope chunks exc) h w = (w', r) →
  names w' = names w ∧ inodes w' = inodes w ∧ rng w' = rng w ∧
  match gen w with
  | NotYielded =>
      (∃ written,
          handles w' = <[h := OFile (of_name f) (of_id f) (of_buf f ++ written) false]> (handles w)
          ∧ (r = Ok tt → written = concat chunks ∧ exc = None)
          ∧ (faults w = [] → written = concat chunks)) ∧
      gen w' = Yielded (match r with Ok _ => None | Raise e => Some e end) ∧
      (faults w = [] →
       faults w' = [] ∧ r = match exc with Some e => Raise e | None => Ok tt end)
  | Yielded t | YieldedAgain t =>
      handles w' = handles w ∧ gen w' = YieldedAgain t ∧ r = Raise GeneratorExit ∧
      faults w' = faults w
  end.
Proof.
  intros Hh Hc H. unfold gen_yield in H.
  destruct (gen w) as [|t|t] eqn:Hg; try (injection H as <- <-; by wsimpl).
  destruct (write_scope chunks exc h (set_gen (Yielded None) w)) as [w1 r1] eqn:Hws.
  apply (write_scope_spec _ _ _ f) in Hws
    as (Hn & Hi & Hgen & Hr & Hwr & Hquiet); wsimpl; [| done | done].
  destruct r1 as [[]|e]; injection H as <- <-; by wsimpl.
Qed.

(** ** The first half: exclusive creation *)

(** The attempt in exclusive creation mode on a destination that does not
    exist, in a directory that does: what it returns and what it leaves,
    by the way the write scope ends. *)
Lemma exclusive_create_quiet_new (D q : path) (d : file_id)
    (chunks : list (list byte)) (exc : option exn) (w : world) :
  faults w = [] → gen w = NotYielded → names w !! D = None →
  resolve w (parent D) = TDir q d →
  ∃ w' r,
    exclusive_create D (gen_yield (write_scope chunks exc)) w = (w', r) ∧
    faults w' = [] ∧ gen w' = Yielded exc ∧
    match exc with
    | None =>
        r = Ok Returned ∧ names w' = <[D := new_file_id w d]> (names w) ∧
        read_file w' D = Some (concat chunks)
    | Some e =>
        if is_FileExistsError e then
          r = Ok FellThrough ∧ names w' = <[D := new_file_id w d]> (names w) ∧
          read_file w' D = Some (concat chunks)
        else if is_Exception e then
          r = Raise e ∧ names w' = names w
        else
          r = Raise e ∧ names w' = <[D := new_file_id w d]> (names w) ∧
          read_file w' D = Some (concat chunks)
    end.
Proof.
  intros Hq Hg HD Hd.
  unfold exclusive_create, try_except, bind, with_file, bind.
  rewrite (path_open_xb_quiet_new w Hq D q d HD Hd).
  set (i := new_file_id w d). set (h := length (handles w)).
  set (f0 := OFile D i [] false).
  unfold gen_yield at 1. wsimpl. rewrite Hg.
  match goal with |- context [write_scope chunks exc h ?W] =>
    destruct (write_scope chunks exc h W) as [w2 r2] eqn:Hws end.
  apply (write_scope_spec _ _ _ f0) in Hws
    as (Hn & Hin & Hgen & _ & (wr & Hh & _ & Hwr) & Hquiet); wsimpl;
    [| by apply list_lookup_middle | done].
  destruct Hquiet as [Hq2 Hr2]; [done |].
  specialize (Hwr Hq). subst wr. set (wr := concat chunks) in *.
  subst f0. wsimpl.
  assert (Hlt : (h < length (handles w ++ [OFile D i [] false]))%nat).
  { rewrite length_app. simpl. unfold h. lia. }
  assert (Hread : ∀ w3 : world,
    names w3 = <[D := i]> (names w) →
    inodes w3 = <[i := IFile wr]> (<[i := IFile []]> (inodes w)) →
    read_file w3 D = Some wr).
  { intros w3 H1 H2. unfold read_file.
    by rewrite H1, lookup_insert_eq, H2, lookup_insert_eq. }
  assert (Hwb : ∀ w3 : world, inodes w3 = inodes w2 →
    match inodes w3 !! i with
    | Some (IFile dd) => <[i := IFile (dd ++ ([] ++ wr))]> (inodes w3)
    | _ => inodes w3
    end = <[i := IFile wr]> (<[i := IFile []]> (inodes w))).
  { intros w3 ->. by rewrite Hin, lookup_insert_eq. }
  destruct exc as [e|]; subst r2.
  - (* the write scope raised [e] *)
    unfold suspended. wsimpl.
    erewrite file_close_quiet; wsimpl;
      [| done | rewrite Hh; by apply list_lookup_insert_eq | done].
    destruct (is_FileExistsError e) eqn:Hfee.
    + eexists _, _. split; [reflexivity |]. unfold mark_closed, write_back. wsimpl.
      split_and!; try done.
      apply Hread; wsimpl; [done |].
      rewrite (Hwb w2 eq_refl). done.
    + destruct (is_Exception e) eqn:Hexc.
      * unfold suppress_FileNotFoundError, try_except.
        erewrite path_unlink_quiet_file.
        -- eexists _, _. split; [reflexivity |]. unfold mark_closed, write_back. wsimpl.
           split_and!; try done. rewrite Hn. by apply delete_insert_id.
        -- unfold mark_closed, write_back. by wsimpl.
        -- unfold mark_closed, write_back. wsimpl. rewrite Hn. apply lookup_insert_eq.
        -- unfold is_dir_id, mark_closed, write_back. wsimpl.
           rewrite (Hwb w2 eq_refl). by rewrite lookup_insert_eq.
      * eexists _, _. split; [reflexivity |]. unfold mark_closed, write_back. wsimpl.
        split_and!; try done.
        apply Hread; wsimpl; [done |]. by rewrite (Hwb w2 eq_refl).
  - (* the write scope completed *)
    unfold suspended. rewrite Hgen.
    erewrite file_close_quiet; wsimpl;
      [| done | rewrite Hh; by apply list_lookup_insert_eq | done].
    eexists _, _. split; [reflexivity |]. unfold mark_closed, write_back. wsimpl.
    split_and!; try done.
    apply Hread; wsimpl; [done |]. by rewrite (Hwb w2 eq_refl).
Qed.

Lemma exclusive_create_quiet_exists (D : path) (yield_ : handle → M unit) (w : world) :
  faults w = [] → is_Some (names w !! D) →
  exclusive_create D yield_ w = (add_log (OpOpenX D) w, Ok FellThrough).
Proof.
  intros Hq HD. unfold exclusive_create, try_except, bind, with_file, bind.
  by rewrite path_open_xb_quiet_exists.
Qed.

(** What the first half does when the exclusive open itself fails. *)
Lemma exclusive_create_open_failed (D : path) (yield_ : handle → M unit)
    (w w1 : world) (e : exn) :
  path_open_xb D w = (w1, Raise e) →
  exclusive_create D yield_ w =
  if is_FileExistsError e then (w1, Ok FellThrough)
  else if is_Exception e
       then (suppress_FileNotFoundError (path_unlink D) ;; raise e) w1
       else (w1, Raise e).
Proof.
  intros Ho. unfold exclusive_create, try_except at 1 2, bind at 1, with_file, bind at 1.
  rewrite Ho. by destruct (is_FileExistsError e).
Qed.

(** The handler of line 40 always ends in a raise and leaves the generator
    where it stood. *)
Lemma cleanup_handler_raises (D : path) (e : exn) (w w' : world) (r : result flow) :
  (suppress_FileNotFoundError (path_unlink D) ;; raise e) w = (w', r) →
  gen w' = gen w ∧ ∃ e', r = Raise e'.
Proof.
  unfold bind, suppress_FileNotFoundError, try_except. intros H.
  destruct (path_unlink D w) as [w2 r2] eqn:Hu.
  apply path_unlink_spec in Hu as (_ & _ & Hg & _).
  destruct r2 as [[]|e2]; [injection H as <- <-; by eauto |].
  destruct (is_FileNotFoundError e2); injection H as <- <-; by eauto.
Qed.

(** When the first [try] statement is left through its [return], the
    write scope has completed and the destination holds what it wrote. *)
Lemma exclusive_create_returned (D : path) (chunks : list (list byte))
    (exc : option exn) (w w' : world) :
  gen w = NotYielded →
  exclusive_create D (gen_yield (write_scope chunks exc)) w = (w', Ok Returned) →
  read_file w' D = Some (concat chunks) ∧ gen w' = Yielded None ∧ exc = None.
Proof.
  intros Hg H. unfold exclusive_create, try_except in H.
  match type of H with context [bind ?m ?k w] =>
    destruct (bind m k w) as [w1 [fl|e]] eqn:Hb end.
  2:{ destruct (is_FileExistsError e); [by injection H |].
      destruct (is_Exception e); [| done]. by apply bind_raise_not_Ok in H. }
  injection H as -> ->.
  unfold bind at 1 in Hb. unfold with_file, bind in Hb.
  destruct (path_open_xb D w) as [w2 [h|e]] eqn:Ho; [| done].
  apply path_open_xb_spec in Ho as (Hg2 & _ & _ & _ & (i & HD & Hi & Hfresh & Hn & Hin & Hh & ->)).
  destruct (gen_yield (write_scope chunks exc) (length (handles w)) w2) as [w3 r3] eqn:Hy.
  apply (gen_yield_spec _ _ _ (OFile D i [] false)) in Hy
    as (Hn3 & Hi3 & _ & Hy); [| rewrite Hh; apply lookup_new_handle | done].
  rewrite Hg2, Hg in Hy. destruct Hy as ((wr & Hh3 & Hwr & _) & Hg3 & _).
  rewrite (not_suspended_Yielded _ _ Hg3) in Hb.
  destruct (file_close (length (handles w)) w3) as [w4 r4] eqn:Hc.
  eapply file_close_spec in Hc as (Hn4 & Hg4 & _ & _ & _ & _ & Hc);
    [| rewrite Hh3, Hh; apply lookup_insert_new_handle | done].
  destruct r4 as [[]|e4]; [| done]. destruct r3 as [[]|e3]; [| done].
  injection Hb as <-. destruct (Hwr eq_refl) as [-> ->].
  destruct Hc as [Hc _]. wsimpl. split_and!; [| congruence | done].
  unfold read_file. rewrite Hn4, Hn3, Hn, lookup_insert_eq, Hc, Hi3, Hin.
  rewrite lookup_insert_eq. by rewrite lookup_insert_eq.
Qed.

(** The first half leaves the generator before its first [yield] or after
    it, never further. *)
Lemma exclusive_create_gen (D : path) (chunks : list (list byte)) (exc : option exn)
    (w w' : world) (r : result flow) :
  gen w = NotYielded →
  exclusive_create D (gen_yield (write_scope chunks exc)) w = (w', r) →
  gen w' = NotYielded ∨ ∃ t, gen w' = Yielded t.
Proof.
  intros Hg H.
  assert (Hinner : ∀ w1 r1,
    (with_file (path_open_xb D) (λ stream, gen_yield (write_scope chunks exc) stream) ;;
     ret Returned) w = (w1, r1) →
    gen w1 = NotYielded ∨ ∃ t, gen w1 = Yielded t).
  { intros w1 r1 Hb. unfold bind at 1 in Hb. unfold with_file, bind in Hb.
    destruct (path_open_xb D w) as [w2 [h|e]] eqn:Ho;
      apply path_open_xb_spec in Ho as (Hg2 & _ & _ & _ & Ho).
    2:{ injection Hb as <- <-. left. congruence. }
    destruct Ho as (i & _ & _ & _ & _ & _ & Hh & ->).
    destruct (gen_yield _ _ w2) as [w3 r3] eqn:Hy.
    apply (gen_yield_spec _ _ _ (OFile D i [] false)) in Hy
      as (_ & _ & _ & Hy); [| rewrite Hh; apply lookup_new_handle | done].
    rewrite Hg2, Hg in Hy. destruct Hy as ((wr & Hh3 & _) & Hg3 & _).
    rewrite (not_suspended_Yielded _ _ Hg3) in Hb.
    destruct (file_close _ w3) as [w4 r4] eqn:Hc.
    eapply file_close_spec in Hc as (_ & Hg4 & _);
      [| rewrite Hh3, Hh; apply lookup_insert_new_handle | done].
    assert (w1 = w4) as ->.
    { destruct r4 as [[]|?]; [destruct r3 as [[]|?] |]; by injection Hb. }
    right. rewrite Hg4, Hg3. by eauto. }
  unfold exclusive_create, try_except in H.
  match type of H with context [bind ?m ?k w] =>
    destruct (bind m k w) as [w1 [fl|e]] eqn:Hb end.
  - injection H as <- <-. exact (Hinner _ _ eq_refl).
  - specialize (Hinner _ _ eq_refl). rename Hinner into Hgen.
    destruct (is_FileExistsError e); [by injection H as <- <- |].
    destruct (is_Exception e); [| by injection H as <- <-].
    unfold bind, suppress_FileNotFoundError, try_except in H.
    destruct (path_unlink D w1) as [w2 r2] eqn:Hu.
    apply path_unlink_spec in Hu as (_ & _ & Hg2 & _).
    assert (w' = w2) as ->.
    { destruct r2 as [[]|e2]; [by injection H |].
      destruct (is_FileNotFoundError e2); by injection H. }
    by rewrite Hg2.
Qed.

(** ** The second half: the staging file *)

(** When lines 53-64 return normally, the write scope has run on the
    staging file and completed, the staging file has been renamed onto
    the destination, and no other name has changed. *)
Lemma stage_and_rename_completed (D : path) (chunks : list (list byte))
    (exc : option exn) (w1 w' : world) :
  is_Some (names w1 !! D) →
  stage_and_rename D (gen_yield (write_scope chunks exc)) w1 = (w', Ok tt) →
  read_file w' D = Some (concat chunks) ∧ gen w1 = NotYielded ∧
  gen w' = Yielded None ∧ exc = None ∧
  (∀ p, p ≠ D → names w' !! p = names w1 !! p).
Proof.
  intros [j Hj] H.
  unfold stage_and_rename, with_file, bind in H.
  destruct (NamedTemporaryFile _ _ w1) as [w2 [h|e]] eqn:Ht; [| done].
  apply NamedTemporaryFile_spec in Ht
    as (Hg2 & _ & (c & i & HT & Hi & Hfresh & Hn2 & Hin2 & Hh2 & ->)).
  set (T := joinpath (parent D) ((".pikepdf." ++ name D) ++ c)%string) in *.
  set (h := length (handles w1)) in *.
  assert (HTD : T ≠ D) by (intros ->; congruence).
  unfold try_except in H.
  destruct (gen_yield (write_scope chunks exc) h w2) as [w3 r3] eqn:Hy.
  apply (gen_yield_spec _ _ _ (OFile T i [] false)) in Hy
    as (Hn3 & Hi3 & _ & Hy); [| rewrite Hh2; apply lookup_new_handle | done].
  destruct r3 as [[]|e3].
  2:{ (* an exception at the [yield] never ends in a normal return *)
      exfalso. unfold raise in H. destruct (is_Exception e3); dead_end H. }
  destruct (gen w2) as [|t|t] eqn:Hgw2; [| by destruct Hy as (_ & _ & ? & _) ..].
  destruct Hy as ((wr & Hh3 & Hwr & _) & Hg3 & _).
  destruct (Hwr eq_refl) as [-> ->]. clear Hwr. wsimpl.
  assert (Hl3 : handles w3 !! h = Some (OFile T i (concat chunks) false)).
  { rewrite Hh3, Hh2. apply lookup_insert_new_handle. }
  cbv beta iota in H.
  destruct (file_flush h w3) as [w5 [[]|e5]] eqn:Hfl; [| dead_end H].
  eapply file_flush_spec in Hfl as (Hn5 & Hg5 & _ & _ & _ & _ & Hi5 & Hh5); [| done | done].
  wsimpl. rewrite Hi3, Hin2, lookup_insert_eq, insert_insert_eq in Hi5.
  assert (Hl5 : handles w5 !! h = Some (OFile T i [] false)).
  { rewrite Hh5. apply list_lookup_insert_eq. by eapply lookup_lt_Some. }
  destruct (file_close h w5) as [w6 [[]|e6]] eqn:Hcl; [| dead_end H].
  eapply file_close_spec in Hcl as (Hn6 & Hg6 & _ & _ & _ & _ & Hi6 & Hh6); [| done | done].
  wsimpl. rewrite Hi5, lookup_insert_eq, insert_insert_eq, app_nil_r in Hi6.
  assert (Hl6 : handles w6 !! h = Some (OFile T i [] true)).
  { rewrite Hh6. apply list_lookup_insert_eq. by eapply lookup_lt_Some. }
  rewrite (file_name_eq _ _ _ Hl6) in H. wsimpl.
  destruct (path_replace T D w6) as [w7 r7] eqn:Hrp.
  apply path_replace_spec in Hrp as (Hi7 & Hh7 & Hg7 & _ & _ & _ & _ & Hrp).
  rewrite (not_suspended_Yielded w7 None) in H by congruence.
  erewrite file_close_closed in H; [| by rewrite Hh7 | done].
  destruct r7 as [[]|e7]; [| done]. injection H as <-.
  assert (HnT : names w6 = <[T := i]> (names w1)) by congruence.
  destruct Hrp as (i' & Hsrc & Hrp).
  rewrite HnT, lookup_insert_eq in Hsrc. injection Hsrc as <-.
  destruct Hrp as [Hn7|[_ Hdst]].
  2:{ exfalso. rewrite HnT, lookup_insert_ne in Hdst by done.
      by apply (Hfresh D). }
  split_and!; try congruence.
  - unfold read_file. rewrite Hn7, lookup_insert_eq, Hi7, Hi6.
    simpl. by rewrite lookup_insert_eq.
  - intros p HpD. rewrite Hn7, lookup_insert_ne by done.
    destruct (decide (p = T)) as [->|HpT].
    + by rewrite lookup_delete_eq, HT.
    + rewrite lookup_delete_ne by done. rewrite HnT. by apply lookup_insert_ne.
Qed.

(** When the second half returns normally, the destination holds what the
    write scope wrote, and no other name has changed, unless the
    destination was a dangling symbolic link, whose target the probe has
    created. *)
Lemma temp_then_rename_completed (D : path) (chunks : list (list byte))
    (exc : option exn) (w w' : world) :
  temp_then_rename D (gen_yield (write_scope chunks exc)) w = (w', Ok tt) →
  read_file w' D = Some (concat chunks) ∧ gen w = NotYielded ∧
  gen w' = Yielded None ∧ exc = None ∧
  (∀ p, p ≠ D → names w' !! p = names w !! p ∨
                (is_link w D = true ∧ names w !! p = None)).
Proof.
  intros H. unfold temp_then_rename, bind in H.
  destruct (probe_writable D w) as [w1 [[]|e]] eqn:Hp; [| done].
  apply probe_writable_spec in Hp as (Hg1 & _ & HD1 & _ & Hoth1 & _ & _).
  destruct (HD1 eq_refl) as (j & Hj & _). clear HD1.
  apply stage_and_rename_completed in H as (Hread & Hg & Hg' & Hexc & Hoth);
    [| by eauto].
  split_and!; try congruence.
  intros p Hp. rewrite (Hoth p Hp). by apply Hoth1.
Qed.

(** Lines 53-64 in a quiet environment, on a destination whose entry
    exists and is no directory: the file the destination named before is
    never changed; either no staging file could be created, or the write
    scope ran on a staging file [T] and
    - completed: [T] was renamed onto the destination;
    - raised an instance of [Exception]: [T] was unlinked again;
    - raised something else: [T] is left behind. *)
Lemma stage_and_rename_quiet (D : path) (j : file_id)
    (chunks : list (list byte)) (exc : option exn) (w w' : world) (r : result unit) :
  faults w = [] → gen w = NotYielded →
  names w !! D = Some j → is_dir_id w j = false →
  stage_and_rename D (gen_yield (write_scope chunks exc)) w = (w', r) →
  inodes w' !! j = inodes w !! j ∧ faults w' = [] ∧
  ((gen w' = NotYielded ∧ names w' = names w ∧ ∃ e, r = Raise e) ∨
   (gen w' = Yielded exc ∧
    ∃ cand i,
      let T := joinpath (parent D) ((".pikepdf." ++ name D) ++ cand)%string in
      names w !! T = None ∧ (∀ q, names w !! q ≠ Some i) ∧ inodes w !! i = None ∧
      match exc with
      | None =>
          r = Ok tt ∧ names w' = <[D := i]> (names w) ∧
          inodes w' !! i = Some (IFile (concat chunks))
      | Some e =>
          r = Raise e ∧
          names w' = (if is_Exception e then names w else <[T := i]> (names w)) ∧
          inodes w' !! i = Some (IFile (concat chunks))
      end)).
Proof.
  intros Hf1 Hg HD Hdir H.
  unfold stage_and_rename, with_file, bind in H.
  destruct (NamedTemporaryFile _ _ w) as [w2 [h|e]] eqn:Ht;
    apply NamedTemporaryFile_spec in Ht as (Hg2 & Hf2 & Ht).
  2:{ injection H as <- <-. destruct Ht as (Hn2 & Hi2 & _).
      split_and!; [congruence | by auto |]. left. split_and!; [congruence.. | by eauto]. }
  specialize (Hf2 Hf1).
  destruct Ht as (cand & i & HT & Hi & Hfresh & Hn2 & Hin2 & Hh2 & ->).
  set (T := joinpath (parent D) ((".pikepdf." ++ name D) ++ cand)%string) in *.
  set (h := length (handles w)) in *.
  assert (HTD : T ≠ D) by (intros ->; congruence).
  assert (Hij : i ≠ j) by (intros ->; by apply (Hfresh D)).
  unfold try_except in H.
  destruct (gen_yield (write_scope chunks exc) h w2) as [w3 r3] eqn:Hy.
  apply (gen_yield_spec _ _ _ (OFile T i [] false)) in Hy
    as (Hn3 & Hi3 & _ & Hy); [| rewrite Hh2; apply lookup_new_handle | done].
  rewrite Hg2, Hg in Hy.
  destruct Hy as ((wr & Hh3 & _ & Hwr) & Hg3 & Hq3).
  specialize (Hwr Hf2). subst wr. destruct (Hq3 Hf2) as [Hf3 Hr3]. clear Hq3.
  wsimpl.
  assert (Hl3 : handles w3 !! h = Some (OFile T i (concat chunks) false)).
  { rewrite Hh3, Hh2. apply lookup_insert_new_handle. }
  assert (Hwritten : ∀ w4 : world,
    inodes w4 = match inodes w3 !! i with
                | Some (IFile d) => <[i := IFile (d ++ concat chunks)]> (inodes w3)
                | _ => inodes w3
                end →
    inodes w4 = <[i := IFile (concat chunks)]> (inodes w)).
  { intros w4 ->. by rewrite Hi3, Hin2, lookup_insert_eq, insert_insert_eq. }
  destruct exc as [e|]; subst r3; cbv beta iota in H.
  - (* the write scope raised [e] *)
    destruct (is_Exception e) eqn:Hexc.
    + unfold raise in H.
      destruct (file_close h w3) as [w4 r4] eqn:Hcl.
      eapply file_close_spec in Hcl as (Hn4 & Hg4 & _ & Hf4 & _ & Hdet & Hcl);
        [| done | done].
      rewrite (Hdet (quiet_hd _ Hf3)) in *. clear Hdet. destruct Hcl as [Hi4 Hh4].
      apply Hwritten in Hi4. wsimpl.
      assert (Hl4 : handles w4 !! h = Some (OFile T i [] true)).
      { rewrite Hh4. apply list_lookup_insert_eq. by eapply lookup_lt_Some. }
      rewrite (file_name_eq _ _ _ Hl4) in H. wsimpl.
      destruct (path_unlink T w4) as [w5 r5] eqn:Hul.
      apply path_unlink_spec in Hul as (Hi5 & Hh5 & Hg5 & _ & Hf5 & _ & Hdet & Hul).
      assert (HnT : names w4 !! T = Some i).
      { rewrite Hn4, Hn3, Hn2. apply lookup_insert_eq. }
      specialize (Hdet (quiet_hd _ (quiet_tl _ _ Hf3 Hf4))). rewrite HnT in Hdet.
      rewrite Hdet in * by (unfold is_dir_id; by rewrite Hi4, lookup_insert_eq).
      clear Hdet. cbv beta iota in H.
      rewrite (not_suspended_Yielded w5 (Some e)) in H by congruence.
      erewrite file_close_closed in H; [| by rewrite Hh5 | done].
      injection H as <- <-. split_and!.
      * rewrite Hi5, Hi4. by rewrite lookup_insert_ne.
      * eapply quiet_tl; [| done]. by eapply quiet_tl.
      * right. split; [congruence |]. exists cand, i. split_and!; try done.
        -- rewrite Hul, Hn4, Hn3, Hn2. by apply delete_insert_id.
        -- rewrite Hi5, Hi4. apply lookup_insert_eq.
    + rewrite (not_suspended_Yielded w3 (Some e)) in H by done.
      destruct (file_close h w3) as [w4 r4] eqn:Hcl.
      eapply file_close_spec in Hcl as (Hn4 & Hg4 & _ & Hf4 & _ & Hdet & Hcl);
        [| done | done].
      rewrite (Hdet (quiet_hd _ Hf3)) in *. clear Hdet. destruct Hcl as [Hi4 Hh4].
      apply Hwritten in Hi4. injection H as <- <-. split_and!.
      * rewrite Hi4. by rewrite lookup_insert_ne.
      * by eapply quiet_tl.
      * right. split; [congruence |]. exists cand, i. split_and!; try done.
        -- by rewrite Hn4, Hn3, Hn2.
        -- rewrite Hi4. apply lookup_insert_eq.
  - (* the write scope completed *)
    destruct (file_flush h w3) as [w4 r4] eqn:Hfl.
    eapply file_flush_spec in Hfl as (Hn4 & Hg4 & _ & Hf4 & _ & Hdet & Hfl);
      [| done | done].
    rewrite (Hdet (quiet_hd _ Hf3)) in *. clear Hdet. destruct Hfl as [Hi4 Hh4].
    apply Hwritten in Hi4. wsimpl.
    pose proof (quiet_tl _ _ Hf3 Hf4) as Hq4.
    assert (Hl4 : handles w4 !! h = Some (OFile T i [] false)).
    { rewrite Hh4. apply list_lookup_insert_eq. by eapply lookup_lt_Some. }
    destruct (file_close h w4) as [w5 r5] eqn:Hcl.
    eapply file_close_spec in Hcl as (Hn5 & Hg5 & _ & Hf5 & _ & Hdet & Hcl);
      [| done | done].
    rewrite (Hdet (quiet_hd _ Hq4)) in *. clear Hdet. destruct Hcl as [Hi5 Hh5].
    wsimpl. rewrite Hi4, lookup_insert_eq, insert_insert_eq, app_nil_r in Hi5.
    pose proof (quiet_tl _ _ Hq4 Hf5) as Hq5.
    assert (Hl5 : handles w5 !! h = Some (OFile T i [] true)).
    { rewrite Hh5. apply list_lookup_insert_eq. by eapply lookup_lt_Some. }
    rewrite (file_name_eq _ _ _ Hl5) in H. wsimpl.
    destruct (path_replace T D w5) as [w6 r6] eqn:Hrp.
    apply path_replace_spec in Hrp as (Hi6 & Hh6 & Hg6 & _ & Hf6 & _ & Hdet & _).
    assert (Hn5' : names w5 = <[T := i]> (names w)) by congruence.
    destruct (Hdet (quiet_hd _ Hq5) i j) as [-> Hn6].
    { rewrite Hn5'. apply lookup_insert_eq. }
    { rewrite Hn5'. by rewrite lookup_insert_ne. }
    { done. }
    { unfold is_dir_id. by rewrite Hi5, lookup_insert_eq. }
    { unfold is_dir_id in *. by rewrite Hi5, lookup_insert_ne. }
    rewrite (not_suspended_Yielded w6 None) in H by congruence.
    erewrite file_close_closed in H; [| by rewrite Hh6 | done].
    injection H as <- <-. split_and!.
    + rewrite Hi6, Hi5. by rewrite lookup_insert_ne.
    + by eapply quiet_tl.
    + right. split; [congruence |]. exists cand, i. split_and!; try done.
      * rewrite Hn6, Hn5'. by rewrite delete_insert_id.
      * rewrite Hi6, Hi5. apply lookup_insert_eq.
Qed.

(** The second half on a destination that is a regular file. *)
Lemma temp_then_rename_quiet (D : path) (j : file_id) (c : list byte)
    (chunks : list (list byte)) (exc : option exn) (w w' : world) (r : result unit) :
  faults w = [] → gen w = NotYielded →
  names w !! D = Some j → inodes w !! j = Some (IFile c) →
  temp_then_rename D (gen_yield (write_scope chunks exc)) w = (w', r) →
  inodes w' !! j = Some (IFile c) ∧ faults w' = [] ∧
  ((gen w' = NotYielded ∧ names w' = names w ∧ ∃ e, r = Raise e) ∨
   (gen w' = Yielded exc ∧
    ∃ cand i,
      let T := joinpath (parent D) ((".pikepdf." ++ name D) ++ cand)%string in
      names w !! T = None ∧ (∀ q, names w !! q ≠ Some i) ∧ inodes w !! i = None ∧
      match exc with
      | None =>
          r = Ok tt ∧ names w' = <[D := i]> (names w) ∧
          inodes w' !! i = Some (IFile (concat chunks))
      | Some e =>
          r = Raise e ∧
          names w' = (if is_Exception e then names w else <[T := i]> (names w)) ∧
          inodes w' !! i = Some (IFile (concat chunks))
      end)).
Proof.
  intros Hq Hg HD Hj H. unfold temp_then_rename, bind in H.
  assert (Hreg : read_file w D = Some c) by (unfold read_file; by rewrite HD, Hj).
  destruct (probe_writable D w) as [w1 r1] eqn:Hp.
  apply probe_writable_spec in Hp as (Hg1 & _ & _ & Hsame & _ & _ & Hq1).
  destruct Hsame as [Hn1 Hi1]; [by eapply not_missing_regular |].
  destruct (Hq1 Hq) as [Hf1 Hr1]. clear Hq1.
  rewrite Hr1 in H by eauto. clear Hr1 r1.
  apply (stage_and_rename_quiet D j) in H; try congruence.
  - by rewrite Hn1, Hi1, Hj in H.
  - unfold is_dir_id. by rewrite Hi1, Hj.
Qed.

(** ** Sessions *)

(** A session that returns normally has committed, whatever the
    environment did on the way. *)
Lemma session_completed (D : path) (chunks : list (list byte)) (w w' : world) :
  with_atomic_overwrite D (write_scope chunks None) w = (w', Ok tt) →
  read_file w' D = Some (concat chunks).
Proof.
  intros H. unfold with_atomic_overwrite in H.
  destruct (atomic_overwrite D _ (set_gen NotYielded w)) as [w1 r] eqn:Ha.
  unfold atomic_overwrite, bind in Ha.
  destruct (exclusive_create D _ (set_gen NotYielded w)) as [w2 [[|]|e]] eqn:Hx.
  - (* left through [return] *)
    apply exclusive_create_returned in Hx as (Hread & Hg & _); [| done].
    injection Ha as <- <-. rewrite Hg in H. by injection H as <-.
  - (* past the handler: the second half ran *)
    destruct r as [[]|e].
    + apply temp_then_rename_completed in Ha as (Hread & _ & Hg & _).
      rewrite Hg in H. by injection H as <-.
    + by destruct (gen w1) as [|t|t]; [| | destruct e].
  - injection Ha as <- <-. by destruct (gen w2) as [|t|t]; [| | destruct e].
Qed.

(** A session on an existing regular file is the second half run after
    the failed exclusive creation. *)
Lemma with_atomic_overwrite_quiet_exists (D : path) (body : handle → M unit)
    (c : list byte) (w : world) :
  faults w = [] → read_file w D = Some c →
  atomic_overwrite D (gen_yield body) (set_gen NotYielded w) =
  temp_then_rename D (gen_yield body) (add_log (OpOpenX D) (set_gen NotYielded w)).
Proof.
  intros Hq Hr. unfold atomic_overwrite, bind.
  rewrite exclusive_create_quiet_exists; [done | done |]. wsimpl.
  unfold read_file in Hr. destruct (names w !! D); [by eauto | done].
Qed.

Lemma session_quiet_exists (D : path) (c : list byte) (chunks : list (list byte))
    (exc : option exn) (w w' : world) (r : result unit) :
  faults w = [] → read_file w D = Some c →
  with_atomic_overwrite D (write_scope chunks exc) w = (w', r) →
  read_file w' D = match exc, r with
                   | None, Ok _ => Some (concat chunks)
                   | _, _ => Some c
                   end ∧
  (gen w' = NotYielded ∧ names w' = names w ∧ (∃ e, r = Raise e) ∨
   gen w' = Yielded exc ∧
   ∃ cand i,
     let T := joinpath (parent D) ((".pikepdf." ++ name D) ++ cand)%string in
     names w !! T = None ∧ (∀ q, names w !! q ≠ Some i) ∧
     match exc with
     | None => r = Ok tt ∧ names w' = <[D := i]> (names w)
     | Some e =>
         r = Raise e ∧
         names w' = (if is_Exception e then names w else <[T := i]> (names w))
     end).
Proof.
  intros Hq Hr H. unfold with_atomic_overwrite in H.
  rewrite (with_atomic_overwrite_quiet_exists D _ c w Hq Hr) in H.
  destruct (temp_then_rename D _ _) as [w1 r1] eqn:Ht.
  unfold read_file in Hr.
  destruct (names w !! D) as [j|] eqn:HD; [| done].
  destruct (inodes w !! j) as [[|c'|t']|] eqn:Hj; try done. injection Hr as ->.
  apply (temp_then_rename_quiet D j c) in Ht
    as (Hj' & _ & [(Hg & Hn & e & ->)|(Hg & cand & i & HT & Hfresh & Hi & Ht)]);
    try done.
  - wsimpl. rewrite Hg in H. injection H as <- <-. split.
    + unfold read_file. rewrite Hn, HD, Hj'. by destruct exc.
    + left. by eauto.
  - wsimpl. rewrite Hg in H. injection H as <- <-.
    assert (HTD : joinpath (parent D) ((".pikepdf." ++ name D) ++ cand)%string ≠ D)
      by (intros Heq; rewrite Heq in HT; congruence).
    split.
    + unfold read_file. destruct exc as [e|].
      * destruct Ht as (-> & -> & _). destruct (is_Exception e).
        -- by rewrite HD, Hj'.
        -- rewrite lookup_insert_ne by done. by rewrite HD, Hj'.
      * destruct Ht as (-> & -> & Hc). by rewrite lookup_insert_eq, Hc.
    + right. split; [done |]. exists cand, i. split_and!; try done.
      destruct exc as [e|]; by destruct Ht as (? & ? & _).
Qed.

(** In a quiet environment, a session whose write scope only writes does
    not fail once that scope has been entered. *)
Lemma session_quiet_completes (D : path) (chunks : list (list byte))
    (w w' : world) (r : result unit) :
  faults w = [] →
  with_atomic_overwrite D (write_scope chunks None) w = (w', r) →
  gen w' ≠ NotYielded → r = Ok tt.
Proof.
  intros Hq H Hran.
  destruct (names w !! D) as [j|] eqn:HD.
  - unfold with_atomic_overwrite, atomic_overwrite in H. unfold bind at 1 in H.
    rewrite exclusive_create_quiet_exists in H; [| done | by wsimpl; eauto].
    unfold temp_then_rename in H. unfold bind at 1 in H.
    destruct (probe_writable D _) as [w1 r1] eqn:Hp.
    apply probe_writable_spec in Hp as (Hg1 & _ & HD1 & _ & _ & _ & Hq1).
    destruct (Hq1 Hq) as [Hf1 _]. clear Hq1. wsimpl.
    destruct r1 as [[]|e1].
    2:{ rewrite Hg1 in H. injection H as <- _. by destruct Hran. }
    destruct (HD1 eq_refl) as (j' & Hj' & Hdir').
    destruct (stage_and_rename D _ w1) as [w2 r2] eqn:Hs.
    apply (stage_and_rename_quiet D j') in Hs
      as (_ & _ & [(Hg & _)|(Hg & _ & _ & _ & _ & _ & -> & _)]); try done.
    + rewrite Hg in H. destruct r2; injection H as <- _; by destruct Hran.
    + rewrite Hg in H. by injection H as _ <-.
  - destruct (resolve w (parent D)) as [| q d | | |] eqn:Hdir.
    2:{ destruct (exclusive_create_quiet_new D q d chunks None (set_gen NotYielded w))
          as (w1 & r1 & Hx & _ & Hg & -> & _); try done.
        unfold with_atomic_overwrite, atomic_overwrite, bind in H.
        rewrite Hx in H. unfold ret in H. rewrite Hg in H. by injection H as _ <-. }
    all: exfalso; apply Hran.
    all: destruct (path_open_xb_quiet_no_dir (set_gen NotYielded w) Hq D)
           as (e & Ho & Hfee);
         [done | intros q' d'; rewrite (resolve_frame w) by done; by rewrite Hdir |].
    all: unfold with_atomic_overwrite, atomic_overwrite in H; unfold bind at 1 in H;
         rewrite (exclusive_create_open_failed _ _ _ _ _ Ho), Hfee in H;
         destruct (is_Exception e);
         [ match type of H with context [bind ?m ?k ?W] =>
             destruct (bind m k W) as [w2 r2] eqn:Hb end;
           apply cleanup_handler_raises in Hb as (Hg & e' & ->); wsimpl;
           rewrite Hg in H; by injection H as <- _
         | wsimpl; by injection H as <- _ ].
Qed.

(** ** The atomic writer: commit *)

(** C1: for every destination [D], payload [chunks] and world, if the
    session [with atomic_overwrite(D) as f: <write the chunks to f>]
    completes without raising, whatever the environment did on the way,
    the file at [D] afterwards holds exactly the bytes written through the
    handle, in order; and in a quiet environment the session does complete
    without raising once the write scope has been entered.  This covers a
    destination that did not exist (the bytes went straight to [D]) and
    one that did (they went to the staging file, renamed onto [D]). *)
Theorem atomic_overwrite_commits (D : path) (chunks : list (list byte))
    (w w' : world) (r : result unit) :
  with_atomic_overwrite D (write_scope chunks None) w = (w', r) →
  (r = Ok tt → read_file w' D = Some (concat chunks)) ∧
  (faults w = [] → gen w' ≠ NotYielded →
   r = Ok tt ∧ read_file w' D = Some (concat chunks)).
Proof.
  intros H.
  assert (Hok : r = Ok tt → read_file w' D = Some (concat chunks)).
  { intros ->. by eapply session_completed. }
  split; [done |]. intros Hq Hran.
  pose proof (session_quiet_completes D chunks w w' r Hq H Hran) as Hr. by auto.
Qed.

Lemma atomic_overwrite_commits_witness :
  let s1 := with_atomic_overwrite out_pdf (write_scope [b "hello"] None)
              empty_dir_world in
  let s2 := with_atomic_overwrite out_pdf (write_scope [b "new-"; b "content"] None)
              old_file_world in
  names empty_dir_world !! out_pdf = None ∧ faults empty_dir_world = [] ∧
  gen (fst s1) ≠ NotYielded ∧
  snd s1 = Ok tt ∧ read_file (fst s1) out_pdf = Some (b "hello") ∧
  read_file old_file_world out_pdf = Some (b "old") ∧ faults old_file_world = [] ∧
  gen (fst s2) ≠ NotYielded ∧
  snd s2 = Ok tt ∧ read_file (fst s2) out_pdf = Some (b "new-content").
Proof.
  intros s1 s2.
  assert (H1 : gen (fst s1) ≠ NotYielded) by (vm_compute; discriminate).
  assert (H2 : gen (fst s2) ≠ NotYielded) by (vm_compute; discriminate).
  destruct (atomic_overwrite_commits out_pdf [b "hello"] empty_dir_world _ _
              (surjective_pairing s1)) as [_ Hs1].
  destruct (atomic_overwrite_commits out_pdf [b "new-"; b "content"] old_file_world _ _
              (surjective_pairing s2)) as [_ Hs2].
  destruct (Hs1 eq_refl H1) as [? ?]. destruct (Hs2 eq_refl H2) as [? ?].
  by split_and!.
Defined.

(** ** The atomic writer: a write scope that raises *)

(** C2, as amended: for a destination [D] that is a regular file before the
    session, in a quiet environment, when the write scope raises [e] after
    writing any chunks: afterwards [D] reads exactly as before and the
    exception that leaves the session is [e]; when [e] is an instance of
    [Exception] the staging file has been deleted, the names in the file
    system being exactly those from before the session; otherwise the
    staging file is left behind. *)
Theorem atomic_overwrite_failure_keeps_destination (D : path) (c : list byte)
    (chunks : list (list byte)) (e : exn) (w w' : world) (r : result unit) :
  faults w = [] → read_file w D = Some c →
  with_atomic_overwrite D (write_scope chunks (Some e)) w = (w', r) →
  gen w' ≠ NotYielded →
  read_file w' D = Some c ∧ r = Raise e ∧
  if is_Exception e then names w' = names w
  else ∃ T, is_staging D T = true ∧ names w !! T = None ∧ is_Some (names w' !! T).
Proof.
  intros Hq Hr H Hran.
  apply (session_quiet_exists D c) in H
    as (Hread & [(Hg & _)|(_ & cand & i & HT & _ & -> & Hn)]); try done.
  split_and!; [done | done |]. destruct (is_Exception e); [done |].
  eexists. split_and!; [apply (is_staging_joinpath D cand) | done |].
  rewrite Hn, lookup_insert_eq. by eauto.
Qed.

Lemma atomic_overwrite_failure_keeps_destination_witness :
  let s := with_atomic_overwrite out_pdf
             (write_scope [b "ne"] (Some (ValueError "boom"))) old_file_world in
  faults old_file_world = [] ∧ read_file old_file_world out_pdf = Some (b "old") ∧
  gen (fst s) ≠ NotYielded ∧
  read_file (fst s) out_pdf = Some (b "old") ∧ snd s = Raise (ValueError "boom") ∧
  names (fst s) = names old_file_world.
Proof.
  intros s.
  assert (Hg : gen (fst s) ≠ NotYielded) by (vm_compute; discriminate).
  destruct (atomic_overwrite_failure_keeps_destination out_pdf (b "old") [b "ne"]
              (ValueError "boom") old_file_world _ _
              eq_refl eq_refl (surjective_pairing s) Hg) as (H1 & H2 & H3).
  by split_and!.
Defined.

(** C2, as stated, fails: a write scope that raises [KeyboardInterrupt]
    leaves the staging file behind. *)
Lemma staging_file_survives_KeyboardInterrupt :
  let s := with_atomic_overwrite out_pdf
             (write_scope [b "ne"] (Some KeyboardInterrupt)) old_file_world in
  snd s = Raise KeyboardInterrupt ∧ ¬ no_staging_left out_pdf old_file_world (fst s).
Proof.
  split; [vm_compute; reflexivity |]. intros H.
  specialize (H [".pikepdf.out.pdfa1b2c3d4"] eq_refl eq_refl).
  vm_compute in H. discriminate.
Qed.




(** A defect next to C3: a [FileExistsError] raised by the write scope is
    caught by the handler meant for the exclusive open (line 38); the
    generator goes on to its second half and yields again, so the session
    ends in [RuntimeError] with the destination and a staging file left
    behind. *)
Example write_scope_FileExistsError_is_swallowed :
  let s := with_atomic_overwrite out_pdf
             (write_scope [b "ne"] (Some FileExistsError)) empty_dir_world in
  snd s = Raise (RuntimeError "generator didn't stop after throw()") ∧
  read_file (fst s) out_pdf = Some (b "ne") ∧
  ¬ no_staging_left out_pdf empty_dir_world (fst s).
Proof.
  split_and!; [vm_compute; reflexivity | vm_compute; reflexivity |].
  intros H. specialize (H [".pikepdf.out.pdfa1b2c3d4"] eq_refl eq_refl).
  vm_compute in H. discriminate.
Qed.




(** A defect next to C4: lines 62-64 are outside the [try] statement, so a
    failure of [flush] (and likewise of [close] or [replace]) leaves the
    staging file behind. *)
Example staging_file_survives_failed_flush :
  let s := with_atomic_overwrite out_pdf (write_scope [b "new"] None) disk_full_world in
  snd s = Raise (OSError 28) ∧
  hd_error (log (fst s)) = Some (OpClose 1%nat) ∧
  read_file (fst s) out_pdf = Some (b "old") ∧
  ¬ no_staging_left out_pdf disk_full_world (fst s).
Proof.
  split_and!; [vm_compute; reflexivity .. |]. intros H.
  specialize (H [".pikepdf.out.pdfa1b2c3d4"] eq_refl eq_refl).
  vm_compute in H. discriminate.
Qed.

(** ** The atomic writer: failures of the exclusive open and of the probe *)




(** A defect next to C5: the handler of line 40 also covers the open
    itself, so when the open fails for another reason than the name being
    taken while the destination does exist, the existing destination is
    unlinked. *)
Example failed_open_unlinks_existing_destination :
  let s := with_atomic_overwrite out_pdf (write_scope [b "new"] None)
             out_of_descriptors_world in
  read_file out_of_descriptors_world out_pdf = Some (b "old") ∧
  snd s = Raise (OSError 24) ∧ names (fst s) !! out_pdf = None.
Proof. vm_compute. by split_and!. Qed.

(** The unlink of the handler is not always tolerated: for a destination
    below a regular file it fails as the open did, with
    [NotADirectoryError], which [suppress(FileNotFoundError)] lets
    through. *)
Example failed_open_below_a_file :
  let D := Path "out.pdf/x" in
  let o := path_open_xb D (set_gen NotYielded old_file_world) in
  snd o = Raise NotADirectoryError ∧
  snd (path_unlink D (fst o)) = Raise NotADirectoryError ∧
  outcome (with_atomic_overwrite D (write_scope [b "x"] None) old_file_world)
  = (Some (b "old"), [(["out.pdf"], (1, 7)); ([], (1, 2))],
     [OpOpenX D; OpUnlink D], Raise NotADirectoryError).
Proof. vm_compute. by split_and!. Qed.



(** ** The atomic writer: cleanup that finds the file gone *)

(** C6 (defect): the two cleanup branches differ.  In exclusive creation
    mode the unlink of line 43 runs under [suppress(FileNotFoundError)]: a
    destination that is already gone is tolerated and the error of the
    write scope is raised.  In temp-then-rename mode the unlink of line 60
    has no such guard: when the staging file is already gone, the session
    raises [FileNotFoundError] in place of the error of the write scope. *)
Theorem staging_cleanup_does_not_tolerate_absence :
  snd (with_atomic_overwrite out_pdf (unlink_then_raise (ValueError "boom"))
         empty_dir_world) = Raise (ValueError "boom") ∧
  snd (with_atomic_overwrite out_pdf (unlink_then_raise (ValueError "boom"))
         old_file_world) = Raise FileNotFoundError.
Proof. split; vm_compute; reflexivity. Qed.

(** * Part III: frames, resources and atomicity *)

(** ** Following one file object *)

Lemma tracks_refl (T : path) (i : file_id) (w : world) : tracks T i w w.
Proof. split_and!; auto. Qed.

Lemma tracks_trans (T : path) (i : file_id) (w1 w2 w3 : world) :
  tracks T i w1 w2 → tracks T i w2 w3 → tracks T i w1 w3.
Proof.
  intros (Hi1 & Hn1 & HT1 & Hl1) (Hi2 & Hn2 & HT2 & Hl2). split_and!.
  - intros k Hk. by rewrite Hi2, Hi1.
  - intros p Hp. by rewrite Hn2, Hn1.
  - destruct HT2 as [-> | ->]; auto.
  - intros t Ht. by apply Hl1, Hl2.
Qed.

(** What changes neither a name nor a file. *)
Lemma tracks_same (T : path) (i : file_id) (w w' : world) :
  names w' = names w → inodes w' = inodes w → tracks T i w w'.
Proof. intros Hn Hi. split_and!; rewrite ?Hn, ?Hi; auto. Qed.

(** A write-back to the regular file [i]. *)
Lemma tracks_write_back (T : path) (i : file_id) (buf : list byte) (w w' : world) :
  names w' = names w →
  inodes w' = match inodes w !! i with
              | Some (IFile d) => <[i := IFile (d ++ buf)]> (inodes w)
              | _ => inodes w
              end →
  tracks T i w w'.
Proof.
  intros Hn Hi. split_and!; rewrite ?Hn; auto.
  - intros k Hk. rewrite Hi. destruct (inodes w !! i) as [[|d|t]|]; try done.
    by rewrite lookup_insert_ne.
  - intros t Ht. rewrite Hi in Ht.
    destruct (inodes w !! i) as [[|d|t']|] eqn:Hd; try congruence.
    by rewrite lookup_insert_eq in Ht.
Qed.

Section Tracking.

Context (hs : list ofile) (T : path) (i : file_id).

Lemma top_lookup (cl : bool) (w : world) :
  top hs T i cl w → ∃ buf, handles w = hs ++ [OFile T i buf cl] ∧
                           handles w !! length hs = Some (OFile T i buf cl).
Proof. intros [buf Hh]. exists buf. split; [done |]. rewrite Hh. apply lookup_new_handle. Qed.

Lemma file_name_top (cl : bool) (w : world) :
  top hs T i cl w → file_name (length hs) w = (w, Ok T).
Proof. intros (buf & _ & Hl)%top_lookup. by rewrite (file_name_eq _ _ _ Hl). Qed.

Lemma file_close_tracks (cl : bool) (w w' : world) (r : result unit) :
  top hs T i cl w → file_close (length hs) w = (w', r) →
  tracks T i w w' ∧ names w' = names w ∧ top hs T i true w'.
Proof.
  intros (buf & Hh & Hl)%top_lookup H. destruct cl.
  - rewrite (file_close_closed _ _ _ Hl eq_refl) in H. injection H as <- <-.
    split_and!; [apply tracks_refl | done | by exists buf].
  - apply (file_close_spec _ _ _ _ _ Hl eq_refl) in H
      as (Hn & _ & _ & _ & _ & _ & H). wsimpl.
    assert (Hhs : ∀ g, <[length hs := g]> (handles w) = hs ++ [g]).
    { intros g. rewrite Hh. apply insert_new_handle. }
    destruct r as [[]|e]; destruct H as [Hi Hh'].
    + split_and!; [by eapply tracks_write_back | done |].
      eexists. by rewrite Hh', Hhs.
    + split_and!; [by apply tracks_same | done |]. eexists. by rewrite Hh', Hhs.
Qed.

Lemma file_flush_tracks (w w' : world) (r : result unit) :
  top hs T i false w → file_flush (length hs) w = (w', r) →
  tracks T i w w' ∧ top hs T i false w'.
Proof.
  intros (buf & Hh & Hl)%top_lookup H.
  apply (file_flush_spec _ _ _ _ _ Hl eq_refl) in H
    as (Hn & _ & _ & _ & _ & _ & H). wsimpl.
  destruct r as [[]|e]; destruct H as [Hi Hh'].
  - split; [by eapply tracks_write_back |].
    eexists. by rewrite Hh', Hh, insert_new_handle.
  - split; [by apply tracks_same |]. exists buf. by rewrite Hh'.
Qed.

Lemma gen_yield_tracks (chunks : list (list byte)) (exc : option exn)
    (w w' : world) (r : result unit) :
  top hs T i false w →
  gen_yield (write_scope chunks exc) (length hs) w = (w', r) →
  tracks T i w w' ∧ top hs T i false w' ∧
  (gen w = NotYielded → ∃ t, gen w' = Yielded t).
Proof.
  intros (buf & Hh & Hl)%top_lookup H.
  apply (gen_yield_spec _ _ _ _ _ _ _ Hl eq_refl) in H as (Hn & Hi & _ & H). wsimpl.
  split; [by apply tracks_same |].
  destruct (gen w) as [|t|t].
  - destruct H as ((wr & Hh' & _) & Hg' & _).
    split; [| by eauto]. eexists. by rewrite Hh', Hh, insert_new_handle.
  - destruct H as (Hh' & _). split; [| done]. exists buf. by rewrite Hh'.
  - destruct H as (Hh' & _). split; [| done]. exists buf. by rewrite Hh'.
Qed.

Lemma path_unlink_tracks (w w' : world) (r : result unit) :
  path_unlink T w = (w', r) → tracks T i w w' ∧ handles w' = handles w.
Proof.
  intros H. apply path_unlink_spec in H as (Hi & Hh & _ & _ & _ & _ & _ & H).
  split; [| done]. destruct r as [[]|e]; [| by apply tracks_same].
  split_and!; rewrite ?Hi, ?H; auto.
  - intros p Hp. by apply lookup_delete_ne.
  - right. apply lookup_delete_eq.
Qed.

Lemma top_same_handles (cl : bool) (w w' : world) :
  handles w' = handles w → top hs T i cl w → top hs T i cl w'.
Proof. intros Hh [buf Hw]. exists buf. by rewrite Hh. Qed.

(** The way out of a [with] statement: the file object is closed, unless
    the frame has been left suspended. *)
Lemma with_exit_tracks {A} (cl : bool) (w w' : world) (rb r : result A) :
  top hs T i cl w →
  (if suspended w then (w, rb)
   else match file_close (length hs) w with
        | (w2, Ok _) => (w2, rb)
        | (w2, Raise e) => (w2, Raise e)
        end) = (w', r) →
  tracks T i w w' ∧ names w' = names w ∧
  (∃ cl', top hs T i cl' w' ∧
          (cl = true ∨ suspended w = false ∨ suspended w' = false → cl' = true)) ∧
  (r = rb ∨ ∃ e, r = Raise e).
Proof.
  intros Ht H. destruct (suspended w) eqn:Hs.
  - injection H as <- <-. split_and!; [apply tracks_refl | done | | by auto].
    exists cl. split; [done |]. rewrite Hs. by intros [?|[?|?]].
  - destruct (file_close (length hs) w) as [w2 r2] eqn:Hc.
    apply (file_close_tracks _ _ _ _ Ht) in Hc as (Htr & Hn & Htop).
    destruct r2 as [[]|e]; injection H as <- <-; split_and!; eauto.
Qed.

End Tracking.

(** ** What each part of the generator leaves alone *)

Lemma all_closed_nil : all_closed [].
Proof. constructor. Qed.

Lemma all_closed_top (hs : list ofile) (T : path) (i : file_id) (w : world) :
  top hs T i true w → ∃ l, handles w = hs ++ l ∧ all_closed l.
Proof. intros [buf Hh]. eexists. split; [done |]. by repeat constructor. Qed.

Lemma created_top (p nm : path) (h : handle) (w w' : world) :
  created_as p nm h w w' →
  ∃ i, h = length (handles w) ∧ top (handles w) nm i false w' ∧
       inodes w !! i = None ∧ names w !! p = None ∧ (∀ q, names w !! q ≠ Some i) ∧
       names w' = <[p := i]> (names w) ∧ inodes w' = <[i := IFile []]> (inodes w).
Proof.
  intros (i & Hp & Hi & Hfresh & Hn & Hin & Hh & ->). exists i.
  split_and!; try done. by exists [].
Qed.

(** A newly created file leaves the files that were there as they were. *)
Lemma created_keeps_inodes (i : file_id) (w w2 w' : world) :
  inodes w !! i = None → inodes w2 = <[i := IFile []]> (inodes w) →
  (∀ k, k ≠ i → inodes w' !! k = inodes w2 !! k) →
  ∀ k x, inodes w !! k = Some x → inodes w' !! k = Some x.
Proof.
  intros Hi Hin Hfr k x Hk. assert (k ≠ i) by congruence.
  rewrite Hfr, Hin by done. by rewrite lookup_insert_ne.
Qed.

(** The way out of a [with] statement whose file object was not written
    to. *)
Lemma with_exit_empty {A} (h : handle) (nm : path) (i : file_id) (w w' : world)
    (rb r : result A) :
  handles w !! h = Some (OFile nm i [] false) →
  (if suspended w then (w, rb)
   else match file_close h w with
        | (w2, Ok _) => (w2, rb)
        | (w2, Raise e) => (w2, Raise e)
        end) = (w', r) →
  names w' = names w ∧ inodes w' = inodes w ∧
  ∃ cl, handles w' = <[h := OFile nm i [] cl]> (handles w) ∧
        (suspended w' = false → cl = true).
Proof.
  intros Hh H. destruct (suspended w) eqn:Hs.
  - injection H as <- <-. split_and!; try done. exists false.
    split; [by rewrite list_insert_id | by rewrite Hs].
  - destruct (file_close h w) as [w2 r2] eqn:Hc.
    apply (file_close_empty _ _ _ _ _ _ Hh) in Hc as (Hn & Hi & _ & _ & _ & _ & _ & Hh2).
    assert (w' = w2) as -> by (destruct r2 as [[]|]; by injection H).
    split_and!; try done. by exists true.
Qed.

(** The probe of line 50: no file that was there changes; the entry of
    an existing destination stays; another name changes only when the
    destination is a dangling symbolic link, whose target is then
    created. *)
Lemma probe_writable_frame (D : path) (w w1 : world) (r1 : result unit) :
  probe_writable D w = (w1, r1) →
  (∀ k x, inodes w !! k = Some x → inodes w1 !! k = Some x) ∧
  (∀ p, p ≠ D → names w1 !! p = names w !! p ∨
                (is_link w D = true ∧ names w !! p = None)) ∧
  (is_Some (names w !! D) → names w1 !! D = names w !! D) ∧
  (∃ l, handles w1 = handles w ++ l ∧ (suspended w1 = false → all_closed l)).
Proof.
  intros H. unfold probe_writable, with_file, bind in H.
  destruct (path_open_ab D w) as [w2 [h|e]] eqn:Ho;
    apply path_open_ab_spec in Ho as (_ & _ & _ & _ & _ & Ho).
  2:{ injection H as <- <-. destruct Ho as (Hn & Hi & Hh). split_and!.
      - intros k x. by rewrite Hi.
      - intros p _. left. by rewrite Hn.
      - intros _. by rewrite Hn.
      - exists []. split; [by rewrite app_nil_r | intros _; apply all_closed_nil]. }
  unfold ret in H.
  assert (Hclosed : ∀ i (hs : list ofile) cl,
    handles w2 = hs ++ [OFile D i [] false] →
    handles w1 = <[length hs := OFile D i [] cl]> (handles w2) →
    (suspended w1 = false → cl = true) →
    ∃ l, handles w1 = hs ++ l ∧ (suspended w1 = false → all_closed l)).
  { intros i hs cl Hh2 Hh1 Hcl. exists [OFile D i [] cl].
    split; [rewrite Hh1, Hh2; apply insert_new_handle |].
    intros ->%Hcl. by repeat constructor. }
  destruct Ho as [(q & Hres & Hq & i & Hqn & Hi & Hfresh & Hn & Hin & Hh & ->)
                 |(i & d & Hi & HDs & Hij & Hn & Hin & Hh & ->)].
  - apply (with_exit_empty _ D i) in H as (Hn1 & Hi1 & cl & Hh1 & Hcl);
      [| rewrite Hh; apply lookup_new_handle].
    split_and!.
    + intros k x Hk. assert (k ≠ i) by congruence.
      by rewrite Hi1, Hin, lookup_insert_ne.
    + intros p Hp. rewrite Hn1, Hn. destruct (decide (p = q)) as [->|Hpq].
      * destruct Hq as [->|Hlink]; [done | by right].
      * left. by apply lookup_insert_ne.
    + intros [j Hj]. rewrite Hn1, Hn. apply lookup_insert_ne. congruence.
    + by eapply Hclosed.
  - apply (with_exit_empty _ D i) in H as (Hn1 & Hi1 & cl & Hh1 & Hcl);
      [| rewrite Hh; apply lookup_new_handle].
    split_and!.
    + intros k x. by rewrite Hi1, Hin.
    + intros p _. left. by rewrite Hn1, Hn.
    + intros _. by rewrite Hn1, Hn.
    + by eapply Hclosed.
Qed.

(** An unlinked entry. *)
Lemma tracks_unlinked (T : path) (i : file_id) (w w' : world) :
  inodes w' = inodes w →
  names w' = names w ∨ names w' = delete T (names w) →
  tracks T i w w'.
Proof.
  intros Hi [Hn|Hn]; [by apply tracks_same |].
  split_and!; rewrite ?Hi, ?Hn; auto.
  - intros p Hp. by apply lookup_delete_ne.
  - right. apply lookup_delete_eq.
Qed.

(** The handler of line 40. *)
Lemma cleanup_handler_frame (D : path) (e : exn) (w w' : world) (r : result flow) :
  (suppress_FileNotFoundError (path_unlink D) ;; raise e) w = (w', r) →
  inodes w' = inodes w ∧ handles w' = handles w ∧
  (names w' = names w ∨ names w' = delete D (names w)).
Proof.
  unfold bind, suppress_FileNotFoundError, try_except. intros H.
  destruct (path_unlink D w) as [w2 r2] eqn:Hu.
  apply path_unlink_spec in Hu as (Hi & Hh & _ & _ & _ & _ & _ & Hu).
  assert (w' = w2) as ->.
  { destruct r2 as [[]|e2]; [by injection H |].
    destruct (is_FileNotFoundError e2); by injection H. }
  split_and!; try done. destruct r2 as [[]|e2]; by auto.
Qed.

(** How the first [try] statement ends once its body is done. *)
Lemma exclusive_create_end (D : path) (w4 w' : world) (r : result flow) (e : exn) :
  (if is_FileExistsError e then (w4, Ok FellThrough)
   else if is_Exception e
        then (suppress_FileNotFoundError (path_unlink D) ;; raise e) w4
        else (w4, Raise e)) = (w', r) →
  inodes w' = inodes w4 ∧ handles w' = handles w4 ∧
  (names w' = names w4 ∨ names w' = delete D (names w4)).
Proof.
  intros He. destruct (is_FileExistsError e).
  - injection He as <- <-. by auto.
  - destruct (is_Exception e); [by eapply cleanup_handler_frame |].
    injection He as <- <-. by auto.
Qed.

(** An entry tracked from a regular file or from nothing is no link. *)
Lemma tracks_not_link (D : path) (i : file_id) (w w' : world) :
  tracks D i w w' → is_link w D = false → is_link w' D = false.
Proof.
  intros (Hfi & _ & HD & Hl) Hnl. unfold is_link in *.
  destruct HD as [HD|HD]; rewrite HD; [| done].
  destruct (names w !! D) as [j|]; [| done].
  destruct (decide (j = i)) as [->|Hji].
  - destruct (inodes w' !! i) as [[| |t]|] eqn:Hi'; try done.
    by rewrite (Hl t eq_refl) in Hnl.
  - by rewrite Hfi.
Qed.

(** Lines 32-44: no name but the destination's changes, no file that was
    there changes, the destination does not become a symbolic link, and
    the file object opened, if any, is closed. *)
Lemma exclusive_create_frame (D : path) (chunks : list (list byte))
    (exc : option exn) (w w' : world) (r : result flow) :
  exclusive_create D (gen_yield (write_scope chunks exc)) w = (w', r) →
  (∀ k x, inodes w !! k = Some x → inodes w' !! k = Some x) ∧
  (∀ p, p ≠ D → names w' !! p = names w !! p) ∧
  (is_link w D = false → is_link w' D = false) ∧
  (gen w = NotYielded → ∃ l, handles w' = handles w ++ l ∧ all_closed l).
Proof.
  intros H.
  destruct (path_open_xb D w) as [w2 [h|e]] eqn:Ho.
  - (* the open succeeded *)
    unfold exclusive_create, try_except in H. unfold bind at 1 in H.
    unfold with_file, bind in H. rewrite Ho in H.
    apply path_open_xb_spec in Ho as (Hg2 & _ & _ & _ & Hc).
    apply created_top in Hc as (i & -> & Htop & Hi & HD & _ & Hn & Hin).
    destruct (gen_yield _ _ w2) as [w3 r3] eqn:Hy.
    apply (gen_yield_tracks _ _ _ _ _ _ _ _ Htop) in Hy as (Ht3 & Htop3 & Hg3).
    match type of H with context [if suspended w3 then ?a else ?b] =>
      destruct (if suspended w3 then a else b) as [w4 r4] eqn:Hexit end.
    apply (with_exit_tracks _ _ _ _ _ _ _ _ Htop3) in Hexit
      as (Ht4 & _ & (cl & Htop4 & Hcl) & _).
    pose proof (tracks_trans _ _ _ _ _ Ht3 Ht4) as Ht.
    assert (Hend : inodes w' = inodes w4 ∧ handles w' = handles w4 ∧
                   (names w' = names w4 ∨ names w' = delete D (names w4))).
    { destruct r4 as [[]|e4].
      - injection H as <- <-. by auto.
      - apply (exclusive_create_end D w4 w' r e4).
        by destruct (is_FileExistsError e4), (is_Exception e4). }
    destruct Hend as (Hi5 & Hh5 & Hn5).
    pose proof (tracks_trans _ _ _ _ _ Ht (tracks_unlinked D i _ _ Hi5 Hn5)) as Htr.
    pose proof Htr as (Hfi & Hfn & _ & _).
    split_and!.
    + by eapply created_keeps_inodes.
    + intros p Hp. rewrite Hfn, Hn by done. by apply lookup_insert_ne.
    + intros _. apply (tracks_not_link _ _ _ _ Htr).
      unfold is_link. by rewrite Hn, lookup_insert_eq, Hin, lookup_insert_eq.
    + intros Hg. rewrite Hh5. apply (all_closed_top _ D i).
      rewrite Hcl in Htop4; [done |]. right. left.
      destruct Hg3 as [t Hg3]; [congruence |]. by eapply not_suspended_Yielded.
  - (* the open failed *)
    rewrite (exclusive_create_open_failed _ _ _ _ _ Ho) in H.
    apply path_open_xb_spec in Ho as (_ & _ & _ & _ & Hn & Hi & Hh).
    apply exclusive_create_end in H as (Hi' & Hh' & Hn').
    pose proof (tracks_unlinked D (0, 0) _ _ Hi' Hn') as Htr.
    pose proof Htr as (_ & Hfn & _ & _).
    split_and!.
    + intros k x Hk. by rewrite Hi', Hi.
    + intros p Hp. by rewrite Hfn, Hn.
    + intros Hnl. unfold is_link in *. rewrite Hi', Hi.
      destruct Hn' as [-> | ->]; [by rewrite Hn |].
      by rewrite lookup_delete_eq.
    + intros _. exists []. split; [by rewrite app_nil_r, Hh', Hh | apply all_closed_nil].
Qed.

(** Lines 53-64: no file that was there changes; no name changes but the
    destination's and that of the staging file; the destination's name
    changes only when the lines return normally; and the file object of
    the staging file is closed, unless the frame is left suspended. *)
Lemma stage_and_rename_frame (D : path) (chunks : list (list byte))
    (exc : option exn) (w1 w' : world) (r : result unit) :
  stage_and_rename D (gen_yield (write_scope chunks exc)) w1 = (w', r) →
  (∀ k x, inodes w1 !! k = Some x → inodes w' !! k = Some x) ∧
  (∀ p, p ≠ D → is_staging D p = false → names w' !! p = names w1 !! p) ∧
  (∀ e, r = Raise e → names w' !! D = names w1 !! D) ∧
  (∃ l, handles w' = handles w1 ++ l ∧ (suspended w' = false → all_closed l)).
Proof.
  intros H. unfold stage_and_rename, with_file in H. unfold bind at 1 in H.
  destruct (NamedTemporaryFile _ _ w1) as [w2 [h|e2]] eqn:Ht;
    apply NamedTemporaryFile_spec in Ht as (_ & _ & Ht).
  2:{ injection H as <- <-. destruct Ht as (Hn2 & Hi2 & Hh2). split_and!.
      - intros k x. by rewrite Hi2.
      - intros p _ _. by rewrite Hn2.
      - intros e _. by rewrite Hn2.
      - exists []. split; [by rewrite app_nil_r | intros _; apply all_closed_nil]. }
  destruct Ht as (cand & Hc).
  set (T := joinpath (parent D) ((".pikepdf." ++ name D) ++ cand)%string) in *.
  assert (HsT : is_staging D T = true) by apply is_staging_joinpath.
  assert (HTD : T ≠ D) by (by apply is_staging_ne).
  apply created_top in Hc as (i & -> & Htop & Hi & HT & _ & Hn2 & Hin2).
  set (hs := handles w1) in *.
  (* what is to be shown, from the world the staging file was created in *)
  assert (Hgoal : ∀ r' cl,
    (∀ k, k ≠ i → inodes w' !! k = inodes w2 !! k) →
    (∀ p, p ≠ T → p ≠ D ∨ (∃ e, r' = Raise e) → names w' !! p = names w2 !! p) →
    top hs T i cl w' → (suspended w' = false → cl = true) → r = r' →
    (∀ k x, inodes w1 !! k = Some x → inodes w' !! k = Some x) ∧
    (∀ p, p ≠ D → is_staging D p = false → names w' !! p = names w1 !! p) ∧
    (∀ e, r = Raise e → names w' !! D = names w1 !! D) ∧
    (∃ l, handles w' = hs ++ l ∧ (suspended w' = false → all_closed l))).
  { intros r' cl Hfi Hfn [buf Hh'] Hcl ->. split_and!.
    - by eapply created_keeps_inodes.
    - intros p HpD Hps. assert (p ≠ T) by (intros ->; congruence).
      rewrite Hfn, Hn2 by auto. by apply lookup_insert_ne.
    - intros e ->. rewrite Hfn, Hn2 by eauto. by apply lookup_insert_ne.
    - exists [OFile T i buf cl]. split; [done |].
      intros ->%Hcl. by repeat constructor. }
  assert (Hleaf : ∀ wk cl (rb : result unit),
    tracks T i w2 wk → top hs T i cl wk →
    (if suspended wk then (wk, rb)
     else match file_close (length hs) wk with
          | (w3, Ok _) => (w3, rb)
          | (w3, Raise e) => (w3, Raise e)
          end) = (w', r) →
    (∀ k x, inodes w1 !! k = Some x → inodes w' !! k = Some x) ∧
    (∀ p, p ≠ D → is_staging D p = false → names w' !! p = names w1 !! p) ∧
    (∀ e, r = Raise e → names w' !! D = names w1 !! D) ∧
    (∃ l, handles w' = hs ++ l ∧ (suspended w' = false → all_closed l))).
  { intros wk cl rb Htk Htopk Hx.
    apply (with_exit_tracks _ _ _ _ _ _ _ _ Htopk) in Hx
      as (Htx & _ & (cl' & Htop' & Hcl') & _).
    destruct (tracks_trans _ _ _ _ _ Htk Htx) as (Hfi & Hfn & _ & _).
    apply (Hgoal r cl'); auto. }
  unfold bind, try_except in H.
  destruct (gen_yield _ _ w2) as [w3 r3] eqn:Hy.
  apply (gen_yield_tracks _ _ _ _ _ _ _ _ Htop) in Hy as (Ht3 & Htop3 & _).
  destruct r3 as [[]|e3].
  - (* the write scope completed: flush, close, replace *)
    destruct (file_flush _ w3) as [w4 r4] eqn:Hfl.
    apply (file_flush_tracks _ _ _ _ _ _ Htop3) in Hfl as [Ht4 Htop4].
    pose proof (tracks_trans _ _ _ _ _ Ht3 Ht4) as Ht24.
    destruct r4 as [[]|e4]; [| by eapply Hleaf; eauto].
    destruct (file_close _ w4) as [w5 r5] eqn:Hcl.
    apply (file_close_tracks _ _ _ _ _ _ _ Htop4) in Hcl as (Ht5 & _ & Htop5).
    pose proof (tracks_trans _ _ _ _ _ Ht24 Ht5) as Ht25.
    destruct r5 as [[]|e5]; [| by eapply Hleaf; eauto].
    rewrite (file_name_top _ _ _ _ _ Htop5) in H.
    destruct (path_replace T D w5) as [w6 r6] eqn:Hrp.
    apply path_replace_spec in Hrp as (Hi6 & Hh6 & _ & _ & _ & _ & _ & Hrp).
    pose proof (top_same_handles _ _ _ _ _ _ Hh6 Htop5) as Htop6.
    destruct r6 as [[]|e6].
    + (* renamed *)
      assert (H' : (w6, Ok tt) = (w', r)).
      { destruct (suspended w6); [done |]. destruct Htop6 as [buf Hh6'].
        erewrite file_close_closed in H; [done | rewrite Hh6'; apply lookup_new_handle | done]. }
      injection H' as <- <-. destruct Ht25 as (Hfi & Hfn & _ & _).
      apply (Hgoal (Ok tt) true); [| | done | done | done].
      * intros k Hk. by rewrite Hi6, Hfi.
      * intros p HpT [HpD|[e ?]]; [| done].
        destruct Hrp as (i' & _ & [->| [-> _]]); [| by apply Hfn].
        rewrite lookup_insert_ne, lookup_delete_ne by done. by apply Hfn.
    + (* the rename failed *)
      assert (Ht26 : tracks T i w2 w6).
      { eapply tracks_trans; [exact Ht25 |]. by apply tracks_same. }
      by eapply Hleaf; eauto.
  - (* an exception at the [yield] *)
    destruct (is_Exception e3); [| by eapply Hleaf; eauto].
    destruct (file_close _ w3) as [w4 r4] eqn:Hcl.
    apply (file_close_tracks _ _ _ _ _ _ _ Htop3) in Hcl as (Ht4 & _ & Htop4).
    pose proof (tracks_trans _ _ _ _ _ Ht3 Ht4) as Ht24.
    destruct r4 as [[]|e4]; [| by eapply Hleaf; eauto].
    rewrite (file_name_top _ _ _ _ _ Htop4) in H.
    destruct (path_unlink T w4) as [w5 r5] eqn:Hul.
    apply (path_unlink_tracks T i) in Hul as [Ht5 Hh5].
    pose proof (tracks_trans _ _ _ _ _ Ht24 Ht5) as Ht25.
    pose proof (top_same_handles _ _ _ _ _ _ Hh5 Htop4) as Htop5.
    unfold raise in H.
    destruct r5 as [[]|e5]; by eapply Hleaf; eauto.
Qed.

(** Lines 50-64: no file that was there changes; no name changes but the
    destination's and that of the staging file, and the target of the
    destination if it is a dangling link; the destination's name changes
    only when the half returns normally; and the file objects opened are
    closed, unless the frame is left suspended. *)
Lemma temp_then_rename_frame (D : path) (chunks : list (list byte))
    (exc : option exn) (w w' : world) (r : result unit) :
  temp_then_rename D (gen_yield (write_scope chunks exc)) w = (w', r) →
  (∀ k x, inodes w !! k = Some x → inodes w' !! k = Some x) ∧
  (∀ p, p ≠ D → is_staging D p = false →
        names w' !! p = names w !! p ∨ (is_link w D = true ∧ names w !! p = None)) ∧
  (∀ e, r = Raise e → is_Some (names w !! D) → names w' !! D = names w !! D) ∧
  (yielded_at_most_once w →
   ∃ l, handles w' = handles w ++ l ∧ (suspended w' = false → all_closed l)).
Proof.
  intros H. unfold temp_then_rename in H. unfold bind at 1 in H.
  destruct (probe_writable D w) as [w1 r1] eqn:Hp.
  pose proof (probe_writable_spec _ _ _ _ Hp) as (Hg1 & _).
  apply probe_writable_frame in Hp as (Hi1 & Hn1 & HD1 & (l1 & Hh1 & Hl1)).
  destruct r1 as [[]|e1].
  2:{ injection H as <- <-. split_and!; try done.
      - intros p Hp _. by apply Hn1.
      - by eauto. }
  apply stage_and_rename_frame in H as (Hi2 & Hn2 & HD2 & (l2 & Hh2 & Hl2)).
  split_and!.
  - intros k x Hk. by apply Hi2, Hi1.
  - intros p Hp Hs. rewrite (Hn2 p Hp Hs). by apply Hn1.
  - intros e He Hs. by rewrite (HD2 e He), (HD1 Hs).
  - intros Hy. exists (l1 ++ l2). split; [by rewrite Hh2, Hh1, <- app_assoc |].
    intros Hs. apply Forall_app. split; [| by apply Hl2].
    apply Hl1, not_suspended. intros t. rewrite Hg1. apply Hy.
Qed.

(** ** The interpreter stays what it is *)

Lemma keeps_ret {A} (a : A) : keeps_interpreter (ret a).
Proof. intros w w' r [= <- _]. done. Qed.

Lemma keeps_raise {A} (e : exn) : keeps_interpreter (raise e : M A).
Proof. intros w w' r [= <- _]. done. Qed.

Lemma keeps_bind {A B} (m : M A) (k : A → M B) :
  keeps_interpreter m → (∀ a, keeps_interpreter (k a)) → keeps_interpreter (bind m k).
Proof.
  intros Hm Hk w w' r H. unfold bind in H.
  destruct (m w) as [w1 [a|e]] eqn:H1; apply Hm in H1.
  - apply Hk in H. congruence.
  - by injection H as <- _.
Qed.

Lemma keeps_try_except {A} (m : M A) (cls : exn → bool) (handler : exn → M A) :
  keeps_interpreter m → (∀ e, keeps_interpreter (handler e)) →
  keeps_interpreter (try_except m cls handler).
Proof.
  intros Hm Hh w w' r H. unfold try_except in H.
  destruct (m w) as [w1 [a|e]] eqn:H1; apply Hm in H1.
  - by injection H as <- _.
  - destruct (cls e); [apply Hh in H; congruence | by injection H as <- _].
Qed.

Lemma keeps_io {A} (o : op) (m : M A) : keeps_interpreter m → keeps_interpreter (io o m).
Proof.
  intros Hm w w' r H. unfold io in H.
  destruct (hd None (faults w)); [by injection H as <- _ | by apply Hm in H].
Qed.

Lemma keeps_create_file (p nm : path) : keeps_interpreter (create_file p nm).
Proof.
  intros w w' r H. unfold create_file, new_handle in H.
  destruct (resolve w (parent p)); by injection H as <- _.
Qed.

Lemma keeps_excl_create (p : path) : keeps_interpreter (excl_create p).
Proof.
  intros w w' r H. unfold excl_create in H.
  destruct (names w !! p); [by injection H as <- _ | by apply keeps_create_file in H].
Qed.

Lemma keeps_path_open_xb (p : path) : keeps_interpreter (path_open_xb p).
Proof. apply keeps_io, keeps_excl_create. Qed.

Lemma keeps_path_open_ab (p : path) : keeps_interpreter (path_open_ab p).
Proof.
  apply keeps_io. intros w w' r H. unfold new_handle in H.
  destruct (resolve w p); try (by injection H as <- _).
  by apply keeps_create_file in H.
Qed.

Lemma keeps_mkstemp_inner (dir : path) (pre : string) (cands : list string) :
  keeps_interpreter (mkstemp_inner cands dir pre).
Proof.
  induction cands as [|c cs IH]; intros w w' r H; simpl in H.
  { by injection H as <- _. }
  match type of H with context [io ?o ?m ?W] =>
    destruct (io o m W) as [w1 [h|e]] eqn:Hx end;
    apply (keeps_io _ _ (keeps_excl_create _)) in Hx; wsimpl.
  - by injection H as <- _.
  - destruct (is_FileExistsError e); [apply IH in H; congruence | by injection H as <- _].
Qed.

Lemma keeps_NamedTemporaryFile (dir : path) (pre : string) :
  keeps_interpreter (NamedTemporaryFile dir pre).
Proof. intros w w' r H. by apply keeps_mkstemp_inner in H. Qed.

Lemma keeps_file_name (h : handle) : keeps_interpreter (file_name h).
Proof.
  intros w w' r H. unfold file_name in H. by destruct (handles w !! h); injection H as <- _.
Qed.

Lemma keeps_file_write (h : handle) (bs : list byte) : keeps_interpreter (file_write h bs).
Proof.
  intros w w' r H. unfold file_write in H.
  destruct (handles w !! h) as [f|]; [| by injection H as <- _].
  destruct (of_closed f); [by injection H as <- _ |].
  eapply keeps_io in H; [done |]. by intros w1 w2 r2 [= <- _].
Qed.

Lemma keeps_file_flush (h : handle) : keeps_interpreter (file_flush h).
Proof.
  intros w w' r H. unfold file_flush in H.
  destruct (handles w !! h) as [f|]; [| by injection H as <- _].
  destruct (of_closed f); [by injection H as <- _ |].
  eapply keeps_io in H; [done |]. by intros w1 w2 r2 [= <- _].
Qed.

Lemma keeps_file_close (h : handle) : keeps_interpreter (file_close h).
Proof.
  intros w w' r H. unfold file_close in H.
  destruct (handles w !! h) as [f|]; [| by injection H as <- _].
  destruct (of_closed f); [by injection H as <- _ |].
  match type of H with context [io ?o ?m w] =>
    destruct (io o m w) as [w1 r1] eqn:Hx end.
  eapply keeps_io in Hx; [| by intros w2 w3 r3 [= <- _]].
  by injection H as <- _.
Qed.

Lemma keeps_path_unlink (p : path) : keeps_interpreter (path_unlink p).
Proof.
  apply keeps_io. intros w w' r H.
  destruct (names w !! p) as [i|]; [| by injection H as <- _].
  destruct (inodes w !! i) as [[| |]|]; by injection H as <- _.
Qed.

Lemma keeps_path_replace (src dst : path) : keeps_interpreter (path_replace src dst).
Proof.
  apply keeps_io. intros w w' r H.
  destruct (names w !! src) as [i|]; [| by injection H as <- _].
  destruct (names w !! dst) as [j|].
  - case_decide; [by injection H as <- _ |].
    destruct (negb (is_dir_id w i) && is_dir_id w j); [by injection H as <- _ |].
    destruct (is_dir_id w i && negb (is_dir_id w j)); by injection H as <- _.
  - destruct (resolve w (parent dst)); by injection H as <- _.
Qed.

Lemma keeps_with_file {A} (opener : M handle) (block : handle → M A) :
  keeps_interpreter opener → (∀ h, keeps_interpreter (block h)) →
  keeps_interpreter (with_file opener block).
Proof.
  intros Ho Hb. apply keeps_bind; [done |]. intros h w w' r H.
  destruct (block h w) as [w1 r1] eqn:H1. apply Hb in H1.
  destruct (suspended w1); [by injection H as <- _ |].
  destruct (file_close h w1) as [w2 r2] eqn:H2. apply keeps_file_close in H2.
  destruct r2; injection H as <- _; congruence.
Qed.

Lemma keeps_write_all (h : handle) (chunks : list (list byte)) :
  keeps_interpreter (write_all h chunks).
Proof.
  induction chunks as [|c cs IH]; simpl; [apply keeps_ret |].
  apply keeps_bind; [apply keeps_file_write | done].
Qed.

Lemma keeps_write_scope (chunks : list (list byte)) (exc : option exn) (h : handle) :
  keeps_interpreter (write_scope chunks exc h).
Proof.
  apply keeps_bind; [apply keeps_write_all |]. intros _.
  destruct exc; [apply keeps_raise | apply keeps_ret].
Qed.

Lemma keeps_gen_yield (body : handle → M unit) (h : handle) :
  (∀ h, keeps_interpreter (body h)) → keeps_interpreter (gen_yield body h).
Proof.
  intros Hb w w' r H. unfold gen_yield in H.
  destruct (gen w); try (by injection H as <- _).
  destruct (body h _) as [w1 [[]|e]] eqn:H1; apply Hb in H1; by injection H as <- _.
Qed.

Lemma keeps_atomic_overwrite (D : path) (yield_ : handle → M unit) :
  (∀ h, keeps_interpreter (yield_ h)) → keeps_interpreter (atomic_overwrite D yield_).
Proof.
  intros Hy. apply keeps_bind.
  - repeat apply keeps_try_except.
    + apply keeps_bind; [| intros; apply keeps_ret].
      apply keeps_with_file; [apply keeps_path_open_xb | done].
    + intros; apply keeps_ret.
    + intros e. apply keeps_bind; [| intros; apply keeps_raise].
      apply keeps_try_except; [apply keeps_path_unlink | intros; apply keeps_ret].
  - intros [|]; [apply keeps_ret |].
    apply keeps_bind.
    + apply keeps_with_file; [apply keeps_path_open_ab | intros; apply keeps_ret].
    + intros _. apply keeps_with_file; [apply keeps_NamedTemporaryFile |].
      intros tf. repeat (apply keeps_bind; [| intros]).
      * apply keeps_try_except; [done |]. intros e.
        repeat (apply keeps_bind; [| intros]);
          auto using keeps_file_close, keeps_file_name, keeps_path_unlink, keeps_raise.
      * apply keeps_file_flush.
      * apply keeps_file_close.
      * apply keeps_file_name.
      * apply keeps_path_replace.
Qed.

(** A session does not change the interpreter. *)
Lemma session_keeps_interpreter (D : path) (body : handle → M unit) :
  (∀ h, keeps_interpreter (body h)) → keeps_interpreter (with_atomic_overwrite D body).
Proof.
  intros Hb w w' r H. unfold with_atomic_overwrite in H.
  destruct (atomic_overwrite D _ _) as [w1 r1] eqn:Ha.
  apply keeps_atomic_overwrite in Ha; [| intros h; by apply keeps_gen_yield].
  assert (w' = w1) as ->; [| done].
  destruct (gen w1) as [|t|t]; [destruct r1 | | destruct r1 as [|[]]];
    by injection H as <- _.
Qed.

(** ** Sessions: frames, resources, atomicity *)

Lemma session_world (D : path) (body : handle → M unit) (w w' : world) (r : result unit) :
  with_atomic_overwrite D body w = (w', r) →
  ∃ r0, atomic_overwrite D (gen_yield body) (set_gen NotYielded w) = (w', r0) ∧
        (r = Ok tt → r0 = Ok tt) ∧
        (r0 = Ok tt → (∃ t, gen w' = Yielded t) → r = Ok tt).
Proof.
  unfold with_atomic_overwrite. intros H.
  destruct (atomic_overwrite D _ _) as [w1 r0].
  exists r0. destruct (gen w1) as [|t|t] eqn:Hg.
  - destruct r0 as [[]|e]; injection H as <- <-; split_and!; try done.
    rewrite Hg. by intros _ [? ?].
  - injection H as <- <-. by split_and!.
  - destruct r0 as [[]|e]; [| destruct e]; injection H as <- <-;
      split_and!; try done; rewrite Hg; by intros _ [? ?].
Qed.

(** What a session leaves alone: the files that were there; the names
    other than the destination's and its staging names, but for the
    target of a destination that is a dangling symbolic link; the file
    objects that were there; and what it opened it has closed, unless the
    generator has been left suspended. *)
Lemma session_frame (D : path) (chunks : list (list byte)) (exc : option exn)
    (w w' : world) (r : result unit) :
  with_atomic_overwrite D (write_scope chunks exc) w = (w', r) →
  (∀ k x, inodes w !! k = Some x → inodes w' !! k = Some x) ∧
  (∀ p, p ≠ D → is_staging D p = false →
        names w' !! p = names w !! p ∨ (is_link w D = true ∧ names w !! p = None)) ∧
  (∃ l, handles w' = handles w ++ l ∧ (suspended w' = false → all_closed l)).
Proof.
  intros (r0 & Ha & _)%session_world.
  unfold atomic_overwrite, bind in Ha.
  destruct (exclusive_create D _ _) as [w1 r1] eqn:Hx.
  pose proof (exclusive_create_gen D chunks exc (set_gen NotYielded w) w1 r1
                eq_refl Hx) as Hgen.
  apply exclusive_create_frame in Hx as (Hi1 & Hn1 & Hl1 & Hh1).
  change (is_link (set_gen NotYielded w) D) with (is_link w D) in Hl1. wsimpl.
  destruct (Hh1 eq_refl) as (l1 & Hh1' & Hc1). clear Hh1.
  destruct r1 as [[|]|e].
  - injection Ha as <- <-. split_and!; [done | intros; left; by apply Hn1 | by eauto].
  - apply temp_then_rename_frame in Ha as (Hi2 & Hn2 & _ & Hh2).
    destruct Hh2 as (l2 & Hh2 & Hc2).
    { intros t. by destruct Hgen as [->|[t' ->]]. }
    split_and!.
    + intros k x Hk. by apply Hi2, Hi1.
    + intros p Hp Hs. destruct (Hn2 p Hp Hs) as [->|[Hlink Hnone]].
      * left. by apply Hn1.
      * right. rewrite <- (Hn1 p Hp). split; [| done].
        destruct (is_link w D) eqn:Hl; [done |]. by rewrite (Hl1 eq_refl) in Hlink.
    + exists (l1 ++ l2). split; [by rewrite Hh2, Hh1', <- app_assoc |].
      intros Hs. apply Forall_app. split; [done | by apply Hc2].
  - injection Ha as <- <-. split_and!; [done | intros; left; by apply Hn1 | by eauto].
Qed.

(** X1: whatever the write scope writes or raises and whatever the
    environment lets fail, a session never changes a file in place: every
    file that was there before the session holds the same bytes afterwards
    (new bytes only ever go to files the session itself created; the
    destination changes by its name being bound anew). *)
Theorem session_never_writes_into_existing_files (D : path)
    (chunks : list (list byte)) (exc : option exn) (w w' : world) (r : result unit) :
  with_atomic_overwrite D (write_scope chunks exc) w = (w', r) →
  ∀ k x, inodes w !! k = Some x → inodes w' !! k = Some x.
Proof. intros H. by apply session_frame in H as (? & _). Qed.

Lemma session_never_writes_into_existing_files_witness :
  let s := with_atomic_overwrite out_pdf (write_scope [b "new"] None) old_file_world in
  inodes old_file_world !! ((1, 7) : file_id) = Some (IFile (b "old")) ∧
  names (fst s) !! out_pdf ≠ Some (1, 7) ∧
  inodes (fst s) !! ((1, 7) : file_id) = Some (IFile (b "old")).
Proof.
  intros s. split; [reflexivity |]. split; [vm_compute; discriminate |].
  apply (session_never_writes_into_existing_files out_pdf [b "new"] None
           old_file_world (fst s) (snd s) (surjective_pairing s)).
  reflexivity.
Defined.



(** Why X2 asks for a destination that is no symbolic link: the probe of
    line 50 follows a dangling link and creates the file it points to,
    which stays behind when the link has been replaced by the new file. *)
Example dangling_link_target_is_created :
  let s := with_atomic_overwrite out_pdf (write_scope [b "new"] None)
             dangling_link_world in
  is_link dangling_link_world out_pdf = true ∧
  names dangling_link_world !! Path "target.pdf" = None ∧
  snd s = Ok tt ∧ read_file (fst s) out_pdf = Some (b "new") ∧
  read_file (fst s) (Path "target.pdf") = Some [].
Proof. vm_compute. by split_and!. Qed.

(** X3: whatever happens in a session, the file objects that existed
    before are left as they were, and every file object the session opened
    has been closed when it ends, provided the interpreter closes a
    generator that yields again (CPython from 3.12 on) or the generator
    did not yield a second time. *)
Theorem session_closes_its_file_objects (D : path)
    (chunks : list (list byte)) (exc : option exn) (w w' : world) (r : result unit) :
  with_atomic_overwrite D (write_scope chunks exc) w = (w', r) →
  closes_generator w = true ∨ yielded_at_most_once w' →
  ∃ l, handles w' = handles w ++ l ∧ all_closed l.
Proof.
  intros H Hc.
  assert (Hs : suspended w' = false).
  { destruct Hc as [Hc|Hc]; [| by apply not_suspended].
    apply session_keeps_interpreter in H; [| intros h; apply keeps_write_scope].
    unfold suspended. rewrite H, Hc. by destruct (gen w'). }
  apply session_frame in H as (_ & _ & l & Hh & Hl). by eauto.
Qed.

Lemma session_closes_its_file_objects_witness :
  let s := with_atomic_overwrite out_pdf (write_scope [b "new"] None) disk_full_world in
  let s' := with_atomic_overwrite out_pdf (write_scope [b "ne"] (Some FileExistsError))
              empty_dir_world in
  closes_generator disk_full_world = true ∧ snd s = Raise (OSError 28) ∧
  (∃ l, handles (fst s) = handles disk_full_world ++ l ∧ length l = 2%nat ∧ all_closed l) ∧
  closes_generator empty_dir_world = true ∧
  snd s' = Raise (RuntimeError "generator didn't stop after throw()") ∧
  (∃ l, handles (fst s') = handles empty_dir_world ++ l ∧ length l = 3%nat ∧
        all_closed l).
Proof.
  intros s s'.
  destruct (session_closes_its_file_objects out_pdf [b "new"] None
              disk_full_world (fst s) (snd s) (surjective_pairing s) (or_introl eq_refl))
    as (l & Hh & Hl).
  destruct (session_closes_its_file_objects out_pdf [b "ne"] (Some FileExistsError)
              empty_dir_world (fst s') (snd s') (surjective_pairing s') (or_introl eq_refl))
    as (l' & Hh' & Hl').
  split_and!; [reflexivity | vm_compute; reflexivity | | reflexivity
              | vm_compute; reflexivity |].
  - exists l. split_and!; [done | | done].
    apply (f_equal length) in Hh. rewrite length_app in Hh.
    assert (Hn : length (handles (fst s)) = 2%nat) by (vm_compute; reflexivity).
    rewrite Hn in Hh. simpl in Hh. lia.
  - exists l'. split_and!; [done | | done].
    apply (f_equal length) in Hh'. rewrite length_app in Hh'.
    assert (Hn : length (handles (fst s')) = 3%nat) by (vm_compute; reflexivity).
    rewrite Hn in Hh'. simpl in Hh'. lia.
Defined.

(** Why X3 asks for it: before CPython 3.12 the generator whose write
    scope raised [FileExistsError] is left suspended at its second
    [yield], inside the [with] statement of the temporary file, whose file
    object is still open when the session has ended. *)
Example generator_left_suspended_before_312 :
  let s := with_atomic_overwrite out_pdf (write_scope [b "ne"] (Some FileExistsError))
             (before_312 empty_dir_world) in
  snd s = Raise (RuntimeError "generator didn't stop after throw()") ∧
  gen (fst s) = YieldedAgain (Some FileExistsError) ∧
  handles (fst s) =
    [OFile out_pdf (1, 3) [] true; OFile out_pdf (1, 3) [] true;
     OFile [".pikepdf.out.pdfa1b2c3d4"] (1, 4) [] false] ∧
  log (fst s) = [OpMkstemp [".pikepdf.out.pdfa1b2c3d4"]; OpClose 1%nat;
                 OpOpenA out_pdf; OpClose 0%nat; OpWrite 0%nat; OpOpenX out_pdf].
Proof. vm_compute. by split_and!. Qed.

(** When a session returns normally, its write scope did. *)
Lemma session_completed_scope (D : path) (chunks : list (list byte))
    (exc : option exn) (w w' : world) :
  with_atomic_overwrite D (write_scope chunks exc) w = (w', Ok tt) →
  exc = None.
Proof.
  intros (r0 & Ha & Hok & _)%session_world. rewrite (Hok eq_refl) in Ha.
  unfold atomic_overwrite, bind in Ha.
  destruct (exclusive_create D _ _) as [w1 [[|]|e]] eqn:Hx; [| | done].
  - by apply exclusive_create_returned in Hx as (_ & _ & ?).
  - by apply temp_then_rename_completed in Ha as (_ & _ & _ & ? & _).
Qed.

(** X4: a session never swallows the failure of its write scope: in every
    world and whatever the environment does, a session whose write scope
    raises ends in an exception. *)
Theorem session_never_swallows (D : path) (chunks : list (list byte))
    (e : exn) (w : world) :
  ∃ e', snd (with_atomic_overwrite D (write_scope chunks (Some e)) w) = Raise e'.
Proof.
  destruct (with_atomic_overwrite D (write_scope chunks (Some e)) w)
    as [w' [[]|e']] eqn:H; [| by eauto].
  by apply session_completed_scope in H.
Qed.

(** X5: once the exclusive open has found the destination [D] to exist, a
    regular file [j] holding [c], the session is all or nothing whatever
    fails afterwards and whatever the write scope raises: if it returns
    normally [D] holds exactly the bytes written; if it raises, [D] still
    names the file [j] and reads [c]. *)
Theorem existing_destination_all_or_nothing (D : path) (j : file_id) (c : list byte)
    (chunks : list (list byte)) (exc : option exn) (w w' : world) (r : result unit) :
  names w !! D = Some j → inodes w !! j = Some (IFile c) →
  hd None (faults w) = None →
  with_atomic_overwrite D (write_scope chunks exc) w = (w', r) →
  match r with
  | Ok _ => read_file w' D = Some (concat chunks)
  | Raise _ => names w' !! D = Some j ∧ read_file w' D = Some c
  end.
Proof.
  intros HD Hj Hhd (r0 & Ha & Hok & Hback)%session_world.
  set (w1 := set_faults (tl (faults w)) (add_log (OpOpenX D) (set_gen NotYielded w))).
  assert (Ho : path_open_xb D (set_gen NotYielded w) = (w1, Raise FileExistsError)).
  { unfold path_open_xb, io, excl_create. wsimpl. by rewrite Hhd, HD. }
  unfold atomic_overwrite, bind in Ha.
  rewrite (exclusive_create_open_failed _ _ _ _ _ Ho) in Ha. simpl in Ha.
  destruct r0 as [[]|e0].
  - (* the second half returned normally *)
    pose proof Ha as Hc.
    apply temp_then_rename_completed in Hc as (Hread & _ & Hg & _).
    rewrite Hback; [done | done | by eauto].
  - (* the second half raised *)
    destruct r as [[]|e]; [by specialize (Hok eq_refl) |].
    apply temp_then_rename_frame in Ha as (Hi & _ & Hn & _).
    assert (HD' : names w' !! D = Some j).
    { rewrite (Hn e0 eq_refl); [done |]. subst w1. wsimpl. by eauto. }
    split; [done |]. unfold read_file. rewrite HD'.
    by rewrite (Hi j (IFile c)).
Qed.

Lemma existing_destination_all_or_nothing_witness :
  let s := with_atomic_overwrite out_pdf (write_scope [b "new"] None) disk_full_world in
  names disk_full_world !! out_pdf = Some (1, 7) ∧
  inodes disk_full_world !! ((1, 7) : file_id) = Some (IFile (b "old")) ∧
  hd None (faults disk_full_world) = None ∧
  snd s = Raise (OSError 28) ∧
  names (fst s) !! out_pdf = Some (1, 7) ∧ read_file (fst s) out_pdf = Some (b "old").
Proof.
  intros s.
  assert (Hs : s = (fst s, Raise (OSError 28))) by (vm_compute; reflexivity).
  split_and!; [reflexivity | reflexivity | reflexivity | by rewrite Hs | |].
  all: apply (existing_destination_all_or_nothing out_pdf (1, 7) (b "old") [b "new"] None
                disk_full_world (fst s) (Raise (OSError 28))
                eq_refl eq_refl eq_refl Hs).
Defined.



(** ** [check_different_files] under any environment *)

(** A [stat] call: it changes nothing, and answers what the file system
    holds unless the environment makes it fail. *)
Lemma os_stat_spec (p : path) (w w' : world) (r : result stat_result) :
  os_stat p w = (w', r) →
  untouched w w' ∧ log w' = OpStat p :: log w ∧ faults w' = tl (faults w) ∧
  ((hd None (faults w) = None ∧ r = stat_of w p) ∨
   (∃ e, hd None (faults w) = Some e ∧ r = Raise e)).
Proof.
  unfold os_stat, io, untouched. intros H.
  destruct (hd None (faults w)) as [e|]; injection H as <- <-; wsimpl;
    split_and!; try done; [by eauto |].
  left. split; [done |]. by apply stat_of_frame.
Qed.

Lemma hd_in_firstn {A} (x : A) (l : list (option A)) :
  hd None l = Some x → In (Some x) (firstn 2 l).
Proof. destruct l as [|a l]; [done |]. simpl. intros ->. by left. Qed.

Lemma hd_tl_in_firstn {A} (x : A) (l : list (option A)) :
  hd None (tl l) = Some x → In (Some x) (firstn 2 l).
Proof.
  destruct l as [|a [|c l]]; try done. simpl. intros ->. right. by left.
Qed.

(** X7: in every world and whatever the environment answers,
    [check_different_files] changes nothing: no name, no file content, no
    file object; all it does is at most two [stat] calls, of [file1] and
    then of [file2]; it never raises [FileNotFoundError]; and an exception
    it raises is its own [ValueError] or the error of one of those two
    [stat] calls, that the environment made it fail with or that the file
    system gives for the path (a path below a regular file, a loop of
    symbolic links). *)
Theorem check_different_files_only_stats (file1 file2 : string) (w : world) :
  let s := check_different_files file1 file2 w in
  untouched w (fst s) ∧
  (log (fst s) = log w ∨
   log (fst s) = OpStat (Path file1) :: log w ∨
   log (fst s) = OpStat (Path file2) :: OpStat (Path file1) :: log w) ∧
  snd s ≠ Raise FileNotFoundError ∧
  (∀ e, snd s = Raise e →
        e = ValueError overwrite_msg ∨ In (Some e) (firstn 2 (faults w)) ∨
        stat_of w (Path file1) = Raise e ∨ stat_of w (Path file2) = Raise e).
Proof.
  unfold check_different_files, suppress_FileNotFoundError, try_except, bind.
  destruct (decide (Path file1 = Path file2)) as [|Hne].
  { simpl. unfold untouched. split_and!; try done; [by left | intros e0 [= <-]; by left]. }
  unfold path_samefile, bind.
  destruct (os_stat (Path file1) w) as [w1 r1] eqn:H1.
  apply os_stat_spec in H1 as ((Hn1 & Hi1 & Hh1) & Hl1 & Hf1 & Hr1).
  destruct r1 as [st1|e1].
  - destruct (os_stat (Path file2) w1) as [w2 r2] eqn:H2.
    apply os_stat_spec in H2 as ((Hn2 & Hi2 & Hh2) & Hl2 & Hf2 & Hr2).
    assert (Hu : untouched w w2) by (unfold untouched; split_and!; congruence).
    assert (Hl : log w2 = OpStat (Path file2) :: OpStat (Path file1) :: log w)
      by congruence.
    destruct r2 as [st2|e2].
    + unfold ret, raise. destruct (samestat st1 st2); simpl;
        split_and!; try done; try (by right; right).
      intros e0 [= <-]. by left.
    + assert (He2 : In (Some e2) (firstn 2 (faults w)) ∨
                    stat_of w (Path file2) = Raise e2).
      { destruct Hr2 as [[_ ->]|(e & He & [= <-])].
        - right. by apply stat_of_frame.
        - left. apply hd_tl_in_firstn. by rewrite <- Hf1. }
      destruct (is_FileNotFoundError e2) eqn:Hfnf; simpl;
        split_and!; try done; try (by right; right).
      * intros [= ->]. discriminate.
      * intros e0 [= <-]. destruct He2; by auto.
  - assert (Hu : untouched w w1) by done.
    assert (He1 : In (Some e1) (firstn 2 (faults w)) ∨
                  stat_of w (Path file1) = Raise e1).
    { destruct Hr1 as [[_ ->]|(e & He & [= <-])]; [by right |].
      left. by apply hd_in_firstn. }
    destruct (is_FileNotFoundError e1) eqn:Hfnf; simpl;
      split_and!; try done; try (by right; left).
    + intros [= ->]. discriminate.
    + intros e0 [= <-]. destruct He1; by auto.
Qed.

(** X8: an error of [stat] other than [FileNotFoundError] is not taken for
    an answer: when the paths differ and the [stat] of [file1] fails with
    [e], or [file1] exists and the [stat] of [file2] fails with [e],
    [check_different_files] raises [e]. *)
Theorem check_different_files_stat_failure (file1 file2 : string) (e : exn) (w : world) :
  Path file1 ≠ Path file2 →
  is_FileNotFoundError e = false →
  hd None (faults w) = Some e ∨
  (hd None (faults w) = None ∧ (∃ i, leads_to w (Path file1) i) ∧
   hd None (tl (faults w)) = Some e) →
  snd (check_different_files file1 file2 w) = Raise e.
Proof.
  intros Hne He Hcase.
  unfold check_different_files, suppress_FileNotFoundError, try_except, bind.
  destruct (decide (Path file1 = Path file2)); [done |].
  unfold path_samefile, bind.
  destruct (os_stat (Path file1) w) as [w1 r1] eqn:H1.
  apply os_stat_spec in H1 as (_ & _ & Hf1 & Hr1).
  destruct Hcase as [Hh | (Hh & [i Hi] & Hh2)].
  - destruct Hr1 as [[? _]|(e1 & He1 & ->)]; [congruence |].
    assert (e1 = e) as -> by congruence. simpl. by rewrite He.
  - destruct Hr1 as [[_ ->]|(e1 & ? & _)]; [| congruence].
    rewrite (stat_of_leads_to _ _ _ Hi).
    destruct (os_stat (Path file2) w1) as [w2 r2] eqn:H2.
    apply os_stat_spec in H2 as (_ & _ & _ & Hr2). rewrite Hf1 in Hr2.
    destruct Hr2 as [[? _]|(e2 & He2 & ->)]; [congruence |].
    assert (e2 = e) as -> by congruence. simpl. by rewrite He.
Qed.

Lemma check_different_files_stat_failure_witness :
  let w := set_faults [None; Some PermissionError] hard_link_world in
  Path "out.pdf" ≠ Path "link.pdf" ∧
  same_file w (Path "out.pdf") (Path "link.pdf") ∧
  snd (check_different_files "out.pdf" "link.pdf" w) = Raise PermissionError.
Proof.
  intros w.
  assert (H1 : leads_to w (Path "out.pdf") (1, 7)).
  { left. exists ["out.pdf"], (b "old"). vm_compute. reflexivity. }
  assert (H2 : leads_to w (Path "link.pdf") (1, 7)).
  { left. exists ["link.pdf"], (b "old"). vm_compute. reflexivity. }
  split; [discriminate |]. split; [right; by exists (1, 7) |].
  apply (check_different_files_stat_failure "out.pdf" "link.pdf" PermissionError w);
    [discriminate | reflexivity |].
  right. split; [reflexivity |]. split; [by exists (1, 7) | reflexivity].
Defined.

(** X9: with a quiet environment, when each of the two paths exists or is
    reported missing by [stat], the verdict of [check_different_files] does
    not depend on the order of its arguments, although the two files are
    looked at in a different order (and the second one not at all when the
    first is missing). *)
Theorem check_different_files_symmetric (file1 file2 : string) (w : world) :
  faults w = [] →
  (∃ i, leads_to w (Path file1) i) ∨ reported_missing w (Path file1) →
  (∃ j, leads_to w (Path file2) j) ∨ reported_missing w (Path file2) →
  snd (check_different_files file1 file2 w) = snd (check_different_files file2 file1 w).
Proof.
  intros Hq H1 H2. rewrite !check_different_files_quiet by done.
  destruct (decide (Path file1 = Path file2)) as [Heq|Hne],
           (decide (Path file2 = Path file1)) as [Heq'|Hne']; try done.
  destruct H1 as [[i H1]|H1], H2 as [[j H2]|H2];
    rewrite ?(stat_of_leads_to _ _ _ H1), ?(stat_of_leads_to _ _ _ H2),
            ?(stat_of_reported_missing _ _ H1), ?(stat_of_reported_missing _ _ H2);
    try done.
  destruct (decide (i = j)) as [->|Hij]; [done |].
  destruct (samestat _ _) eqn:Hs1; [by apply samestat_iff in Hs1 |].
  destruct (samestat (StatResult (fst j) _) _) eqn:Hs2; [| done].
  by apply samestat_iff in Hs2.
Qed.

Lemma check_different_files_symmetric_witness :
  faults hard_link_world = [] ∧
  log (fst (check_different_files "missing.pdf" "link.pdf" hard_link_world))
  ≠ log (fst (check_different_files "link.pdf" "missing.pdf" hard_link_world)) ∧
  snd (check_different_files "missing.pdf" "link.pdf" hard_link_world)
  = snd (check_different_files "link.pdf" "missing.pdf" hard_link_world).
Proof.
  split; [reflexivity |]. split; [vm_compute; discriminate |].
  apply (check_different_files_symmetric "missing.pdf" "link.pdf" hard_link_world eq_refl).
  - right. exists ["missing.pdf"]. split; vm_compute; reflexivity.
  - left. exists (1, 7). left. exists ["link.pdf"], (b "old"). vm_compute. reflexivity.
Defined.

(** Why X9 asks for it: a path below a regular file is an error to
    [stat], and is only looked at when the first path exists. *)
Example check_different_files_order_matters :
  snd (check_different_files "missing.pdf" "out.pdf/x" old_file_world) = Ok tt ∧
  snd (check_different_files "out.pdf/x" "missing.pdf" old_file_world)
  = Raise NotADirectoryError.
Proof. vm_compute. by split. Qed.


